(** * nengo_dl.compat: a shallow embedding and its properties

    The module [nengo_dl/compat.py] is executed once, at import time.  It
    defines the unavailable-marker types ([NoType], [make_dummy_type],
    [is_dummy_type]), a filter for the TensorFlow logger ([TFLogFilter]),
    a vendored graph traversal ([_build_map], [_build_map_helper]) and a
    version-gated sequence of bindings.

    Part I embeds these definitions; Part II states and proves their
    properties. *)

From stdpp Require Import gmap strings pretty list fin_maps.
From Stdlib Require Import ZArith Ascii.

(** * Part I: the embedding *)

(** ** Python values, exceptions and outcomes *)

Module Py.

(** The exception classes that the module raises, catches or lets
    through.  [ModuleNotFoundError] is a subclass of [ImportError]. *)
Inductive exn_class :=
| ImportError
| ModuleNotFoundError
| RuntimeError
| ValueError
| AttributeError
| TypeError
| IndexError
| InvalidVersion
| OtherError (name : string).

Record exn := Exn { exn_type : exn_class; exn_msg : string }.

(** [except ImportError] catches the class and its subclass. *)
Definition is_ImportError (e : exn) : bool :=
  match exn_type e with
  | ImportError | ModuleNotFoundError => true
  | _ => false
  end.

(** A computation either returns or raises. *)
Definition result (A : Type) : Type := exn + A.

Definition ret {A} (a : A) : result A := inr a.
Definition raise {A} (e : exn) : result A := inl e.
Definition bind {A B} (m : result A) (k : A → result B) : result B :=
  match m with
  | inl e => inl e
  | inr a => k a
  end.

Definition returns {A} (m : result A) : bool :=
  match m with inr _ => true | inl _ => false end.

(** Methods of a class body.  The only method body the module writes is
    a bare [raise]; [MethodPass] stands for a body that returns. *)
Inductive method :=
| MethodRaise (e : exn)
| MethodPass.

(** Class objects.  [PyObject] is the builtin [object], [NoType] is the
    class statement of the module (identified by name, as a class
    statement creates one object), and [PyType name base dict] is the
    class made by [type(name, (base,), dict)]: the module only ever
    passes a one-element tuple of bases. *)
Inductive pyclass :=
| PyObject
| NoType
| PyType (name : string) (base : pyclass) (dict : list (string * method)).

(** Functions defined by [def] statements of the module.  The legacy and
    the modern branch define different functions under one name. *)
Inductive fundef :=
| F_make_dummy_type
| F_is_dummy_type
| F_build_map
| F_build_map_helper
| F_conform_to_reference_input
| F_conn_has_weights_legacy
| F_neuron_state_legacy
| F_neuron_step_legacy
| F_to_neurons_legacy
| F_conn_has_weights
| F_neuron_state
| F_neuron_step
| F_to_neurons
| F_eager_enabled.

(** Values that are bound to names or carried by log records.
    [VNative m a] is the object that [from m import a] yields,
    [VModule m] the module object of [import m] and [VTFLogFilter] the
    class object of the module's class statement [TFLogFilter]. *)
Inductive value :=
| VNone
| VBool (b : bool)
| VInt (z : Z)
| VStr (s : string)
| VClass (c : pyclass)
| VFunc (f : fundef)
| VNative (module attr : string)
| VModule (module : string)
| VInstance (c : pyclass)
| VTFLogFilter.

(** [v == s] for a string literal [s]: only an equal string is equal. *)
Definition eq_str (v : value) (s : string) : bool :=
  match v with
  | VStr s' => String.eqb s' s
  | _ => false
  end.

(** Sequence indexing [l[i]] with Python's negative indices. *)
Definition index {A} (l : list A) (i : Z) : result A :=
  let n := Z.of_nat (length l) in
  let j := if (i <? 0)%Z then (n + i)%Z else i in
  if ((0 <=? j) && (j <? n))%Z
  then match l !! Z.to_nat j with
       | Some a => ret a
       | None => raise (Exn IndexError "list index out of range")
       end
  else raise (Exn IndexError "list index out of range").

(** [s.startswith(p)] *)
Fixpoint startswith (s p : string) {struct p} : bool :=
  match p, s with
  | EmptyString, _ => true
  | String a p', String b s' => Ascii.eqb a b && startswith s' p'
  | String _ _, EmptyString => false
  end.

(** [p in s] for strings *)
Fixpoint contains (s p : string) : bool :=
  startswith s p ||
  match s with
  | EmptyString => false
  | String _ s' => contains s' p
  end.

(** [s.lower()] on the ASCII letters; the other characters of a byte
    string are left as they are. *)
Definition lower_ascii (a : ascii) : ascii :=
  let n := nat_of_ascii a in
  if (65 <=? n)%nat && (n <=? 90)%nat then ascii_of_nat (n + 32) else a.

Fixpoint lower (s : string) : string :=
  match s with
  | EmptyString => EmptyString
  | String a s' => String (lower_ascii a) (lower s')
  end.

(** [p] occurs in [s]. *)
Definition occurs (p s : string) : Prop :=
  ∃ before after, s = before +:+ p +:+ after.

(** [p] occurs in [s] up to the case of the letters of [s]. *)
Definition occurs_nocase (p s : string) : Prop :=
  ∃ before mid after, s = before +:+ mid +:+ after ∧ lower mid = p.

End Py.

(** ** Unavailable markers (compat.py, lines 18 to 32) *)

Module Marker.
Import Py.

(** The body of a class: its own namespace. *)
Definition class_dict (c : pyclass) : list (string * method) :=
  match c with
  | PyObject => []
  | NoType =>
      [("__init__", MethodRaise (Exn RuntimeError "cannot instantiate"))]
  | PyType _ _ dict => dict
  end.

(** [c.__mro__]: the class followed by the chain of its bases. *)
Fixpoint mro (c : pyclass) : list pyclass :=
  match c with
  | PyObject => [PyObject]
  | NoType => [NoType; PyObject]
  | PyType _ base _ => c :: mro base
  end.

Fixpoint assoc (k : string) (d : list (string * method)) : option method :=
  match d with
  | [] => None
  | (k', m) :: d' => if String.eqb k' k then Some m else assoc k d'
  end.

(** Attribute lookup on a class: the first class body along the MRO
    that defines the name. *)
Fixpoint lookup_mro (k : string) (cs : list pyclass) : option method :=
  match cs with
  | [] => None
  | c :: cs' =>
      match assoc k (class_dict c) with
      | Some m => Some m
      | None => lookup_mro k cs'
      end
  end.

(** Calling a class with positional and keyword arguments: the object
    is allocated and the [__init__] found along the MRO is run with the
    arguments.  When no class body defines one, [object.__init__] accepts
    no argument. *)
Definition instantiate (c : pyclass) (args : list value)
    (kwargs : list (string * value)) : result value :=
  match lookup_mro "__init__" (mro c) with
  | Some (MethodRaise e) => raise e
  | Some MethodPass => ret (VInstance c)
  | None =>
      match args, kwargs with
      | [], [] => ret (VInstance c)
      | _, _ => raise (Exn TypeError "object() takes no arguments")
      end
  end.

(** [def make_dummy_type(name): return type(name, (NoType,), {})] *)
Definition make_dummy_type (name : string) : pyclass :=
  PyType name NoType [].

Definition is_NoType (c : pyclass) : bool :=
  match c with NoType => true | _ => false end.

(** [issubclass(t, NoType)]: is [NoType] one of [t.__mro__]? *)
Definition issubclass_NoType (t : pyclass) : bool :=
  existsb is_NoType (mro t).

(** [def is_dummy_type(t): return issubclass(t, NoType)] *)
Definition is_dummy_type (t : pyclass) : bool := issubclass_NoType t.

(** The subclass relation as the language defines it: a class is a
    subclass of itself and of every class that its base is a subclass
    of. *)
Inductive subclass : pyclass → pyclass → Prop :=
| subclass_refl c : subclass c c
| subclass_NoType_object : subclass NoType PyObject
| subclass_base name base dict c :
    subclass base c → subclass (PyType name base dict) c.

End Marker.

(** ** The log filter (compat.py, lines 38 to 91) *)

Module TFLogFilter.
Import Py.

(** The attributes of a [logging.LogRecord] that the filter reads.
    [args] is the tuple of arguments of the logging call. *)
Record LogRecord := {
  args : list value;
  msg : string;
  pathname : string
}.

Record t := __init__ { err_on_deprecation : bool }.

Section Filter.

(** [record.getMessage()] is a method of the standard library's
    [LogRecord] (the message merged with the arguments); it is not
    defined by the module and is taken as given. *)
Variable getMessage : LogRecord → string.

Definition filter (self : t) (record : LogRecord) : result bool :=
  if (1 <? length (args record))%nat
     && match args record !! 1%nat with
        | Some a => eq_str a "tf.keras.backend.get_session"
        | None => false
        end
  then ret false
  else if startswith (msg record)
            "Output steps_run missing from loss dictionary"
  then ret false
  else if err_on_deprecation self
          && (contains (pathname record) "deprecation.py"
              || contains (lower (msg record)) "deprecated")
  then
    let msg := getMessage record in
    raise (Exn AttributeError
             ("Deprecation warning detected:" +:+ String "010" msg))
  else ret true.

End Filter.

(** The two known spurious patterns and the deprecation flavour, as
    properties of a record. *)
Definition get_session_pattern (record : LogRecord) : Prop :=
  (1 < length (args record))%nat ∧
  args record !! 1%nat = Some (VStr "tf.keras.backend.get_session").

Definition steps_run_pattern (record : LogRecord) : Prop :=
  ∃ rest,
    msg record = "Output steps_run missing from loss dictionary" +:+ rest.

Definition spurious (record : LogRecord) : Prop :=
  get_session_pattern record ∨ steps_run_pattern record.

Definition deprecation_flavored (record : LogRecord) : Prop :=
  occurs_nocase "deprecated" (msg record) ∨
  occurs "deprecation.py" (pathname record).

End TFLogFilter.

(** ** Versions (the [packaging.version] dependency) *)

Module Versions.
Import Py.

(** What the module uses of [packaging.version]: [version.parse] and the
    comparison [<] of parsed versions.  [parse s = None] stands for
    [InvalidVersion] being raised. *)
Class Packaging := {
  Version : Type;
  parse : string → option Version;
  version_lt : Version → Version → bool
}.

(** [version.parse(installed) < version.parse(threshold)] *)
Definition below `{Packaging} (installed threshold : string) : result bool :=
  match parse installed with
  | None => raise (Exn InvalidVersion installed)
  | Some v =>
      match parse threshold with
      | None => raise (Exn InvalidVersion threshold)
      | Some t => ret (version_lt v t)
      end
  end.

End Versions.

(** *** A reference instance: PEP 440 public versions *)

(** Modelled from the spec: the Version Descriptor, "a parsed semantic
    version (major.minor.patch + pre-release tag)", which the dependency
    [packaging] implements after PEP 440 and which is not part of the
    sources.  The instance covers the public version identifiers
    [[N!]N(.N)*[{a|b|rc}N][.postN][.devN]] with the separators and the
    alternative spellings that PEP 440 normalises; a local version label,
    surrounding white space and a run of letters that joins two segments
    are outside the fragment and rejected here. *)

Module PEP440.
Import Py.

Inductive token :=
| TNum (n : N)
| TWord (w : string)
| TSep (c : ascii).

Definition is_digit (a : ascii) : bool :=
  let n := nat_of_ascii a in (48 <=? n)%nat && (n <=? 57)%nat.

Definition is_letter (a : ascii) : bool :=
  let n := nat_of_ascii a in (97 <=? n)%nat && (n <=? 122)%nat.

Definition digit_value (a : ascii) : N := N.of_nat (nat_of_ascii a - 48).

(** What the scanner is in the middle of. *)
Inductive pending :=
| PNone
| PNum (n : N)
| PWord (w : string).

Definition flush (p : pending) : list token :=
  match p with
  | PNone => []
  | PNum n => [TNum n]
  | PWord w => [TWord w]
  end.

(** Maximal runs of digits and of letters; every other character is a
    one-character token. *)
Fixpoint scan (s : string) (p : pending) : list token :=
  match s with
  | EmptyString => flush p
  | String a s' =>
      if is_digit a then
        match p with
        | PNum n => scan s' (PNum (10 * n + digit_value a))
        | _ => flush p ++ scan s' (PNum (digit_value a))
        end
      else if is_letter a then
        match p with
        | PWord w => scan s' (PWord (w +:+ String a EmptyString))
        | _ => flush p ++ scan s' (PWord (String a EmptyString))
        end
      else flush p ++ TSep a :: scan s' PNone
  end.

Inductive pre_tag := Alpha | Beta | Candidate.

Record version := {
  epoch : N;
  release : list N;
  pre : option (pre_tag * N);
  post : option N;
  dev : option N
}.

Definition is_sep (c : ascii) : bool :=
  Ascii.eqb c "." || Ascii.eqb c "-" || Ascii.eqb c "_".

Definition pre_word (w : string) : option pre_tag :=
  if String.eqb w "a" || String.eqb w "alpha" then Some Alpha
  else if String.eqb w "b" || String.eqb w "beta" then Some Beta
  else if String.eqb w "c" || String.eqb w "rc" || String.eqb w "pre"
          || String.eqb w "preview" then Some Candidate
  else None.

Definition post_word (w : string) : bool :=
  String.eqb w "post" || String.eqb w "rev" || String.eqb w "r".

Definition dev_word (w : string) : bool := String.eqb w "dev".

(** The number that may follow a segment's letters, after an optional
    separator; it is 0 when left out. *)
Definition segment_number (ts : list token) : N * list token :=
  match ts with
  | TNum n :: ts' => (n, ts')
  | TSep c :: TNum n :: ts' => if is_sep c then (n, ts') else (0%N, ts)
  | _ => (0%N, ts)
  end.

(** The tokens with an optional leading separator taken off, when a
    word follows it. *)
Definition segment_word (ts : list token) : option (string * list token) :=
  match ts with
  | TWord w :: ts' => Some (w, ts')
  | TSep c :: TWord w :: ts' => if is_sep c then Some (w, ts') else None
  | _ => None
  end.

Fixpoint parse_release (ts : list token) : list N * list token :=
  match ts with
  | TSep c :: TNum n :: ts' =>
      if Ascii.eqb c "."
      then let '(r, rest) := parse_release ts' in (n :: r, rest)
      else ([], ts)
  | _ => ([], ts)
  end.

Definition parse_pre (ts : list token)
  : option (pre_tag * N) * list token :=
  match segment_word ts with
  | Some (w, ts') =>
      match pre_word w with
      | Some tag => let '(n, rest) := segment_number ts' in
                    (Some (tag, n), rest)
      | None => (None, ts)
      end
  | None => (None, ts)
  end.

Definition parse_post (ts : list token) : option N * list token :=
  match ts with
  | TSep "-" :: TNum n :: ts' => (Some n, ts')
  | _ =>
      match segment_word ts with
      | Some (w, ts') =>
          if post_word w
          then let '(n, rest) := segment_number ts' in (Some n, rest)
          else (None, ts)
      | None => (None, ts)
      end
  end.

Definition parse_dev (ts : list token) : option N * list token :=
  match segment_word ts with
  | Some (w, ts') =>
      if dev_word w
      then let '(n, rest) := segment_number ts' in (Some n, rest)
      else (None, ts)
  | None => (None, ts)
  end.

Definition parse_epoch (ts : list token) : N * list token :=
  match ts with
  | TNum e :: TSep "!" :: ts' => (e, ts')
  | _ => (0%N, ts)
  end.

Definition strip_v (ts : list token) : list token :=
  match ts with
  | TWord "v" :: ts' => ts'
  | _ => ts
  end.

Definition parse_tokens (ts : list token) : option version :=
  let '(e, ts) := parse_epoch (strip_v ts) in
  match ts with
  | TNum n :: ts =>
      let '(r, ts) := parse_release ts in
      let '(p, ts) := parse_pre ts in
      let '(q, ts) := parse_post ts in
      let '(d, ts) := parse_dev ts in
      match ts with
      | [] => Some {| epoch := e; release := n :: r; pre := p;
                      post := q; dev := d |}
      | _ => None
      end
  | _ => None
  end.

Definition parse (s : string) : option version :=
  parse_tokens (scan (lower s) PNone).

(** The comparison key of a version and its lexicographic order. *)
Inductive ext (A : Type) :=
| NegInf
| Fin (a : A)
| PosInf.
Arguments NegInf {A}.
Arguments Fin {A} a.
Arguments PosInf {A}.

Definition lex (c1 c2 : comparison) : comparison :=
  match c1 with Eq => c2 | _ => c1 end.

Definition compare_ext {A} (cmp : A → A → comparison) (x y : ext A)
  : comparison :=
  match x, y with
  | NegInf, NegInf => Eq
  | NegInf, _ => Lt
  | Fin _, NegInf => Gt
  | Fin a, Fin b => cmp a b
  | Fin _, PosInf => Lt
  | PosInf, PosInf => Eq
  | PosInf, _ => Gt
  end.

(** Tuples of numbers: a proper prefix is smaller. *)
Fixpoint compare_release (r1 r2 : list N) : comparison :=
  match r1, r2 with
  | [], [] => Eq
  | [], _ :: _ => Lt
  | _ :: _, [] => Gt
  | a :: r1', b :: r2' => lex (a ?= b)%N (compare_release r1' r2')
  end.

(** Trailing zeros of the release do not count. *)
Fixpoint strip_zeros (r : list N) : list N :=
  match r with
  | [] => []
  | a :: r' =>
      match strip_zeros r' with
      | [] => if (a =? 0)%N then [] else [a]
      | r'' => a :: r''
      end
  end.

(** The letters compare as the strings "a" < "b" < "rc". *)
Definition tag_rank (t : pre_tag) : N :=
  match t with Alpha => 0%N | Beta => 1%N | Candidate => 2%N end.

Definition compare_pre (p q : pre_tag * N) : comparison :=
  lex (tag_rank p.1 ?= tag_rank q.1)%N (p.2 ?= q.2)%N.

(** A development release with neither pre nor post segment sorts
    before every pre-release; a version with no pre segment otherwise
    sorts after them. *)
Definition pre_key (v : version) : ext (pre_tag * N) :=
  match pre v, post v, dev v with
  | None, None, Some _ => NegInf
  | None, _, _ => PosInf
  | Some p, _, _ => Fin p
  end.

Definition post_key (v : version) : ext N :=
  match post v with None => NegInf | Some n => Fin n end.

Definition dev_key (v : version) : ext N :=
  match dev v with None => PosInf | Some n => Fin n end.

Definition compare (v w : version) : comparison :=
  lex (epoch v ?= epoch w)%N
    (lex (compare_release (strip_zeros (release v))
            (strip_zeros (release w)))
       (lex (compare_ext compare_pre (pre_key v) (pre_key w))
          (lex (compare_ext N.compare (post_key v) (post_key w))
             (compare_ext N.compare (dev_key v) (dev_key w))))).

Definition lt (v w : version) : bool :=
  match compare v w with Lt => true | _ => false end.

#[export] Instance packaging : Versions.Packaging := {|
  Versions.Version := version;
  Versions.parse := parse;
  Versions.version_lt := lt
|}.

End PEP440.

(** ** The module body: capability resolution (compat.py, top level) *)

Module Resolver.
Import Py Marker Versions.

(** What the interpreter finds installed when the module is loaded. *)
Record environment := {
  tf_version : string;                 (* [tf.__version__] *)
  nengo_version : string;              (* [nengo.__version__] *)
  import_error : string → option exn;  (* what loading a module raises *)
  has_attr : string → string → bool    (* the attributes of its objects *)
}.

(** What loading the module leaves behind: its global names, the
    filters attached to TensorFlow's logger and the attributes it has
    assigned on objects of other modules. *)
Record module_state := {
  globals : gmap string value;
  log_filters : list TFLogFilter.t;
  patches : list (string * string * value)
}.

Definition initial_state : module_state :=
  {| globals := ∅; log_filters := []; patches := [] |}.

(** Statements run against the state; what a statement has done stays
    done when a later one raises. *)
Definition M (A : Type) : Type := module_state → result A * module_state.

#[export] Instance M_ret : MRet M := λ A a s, (ret a, s).

#[export] Instance M_bind : MBind M := λ A B k m s,
  match m s with
  | (inl e, s') => (inl e, s')
  | (inr a, s') => k a s'
  end.

Definition seq {A} (m : M unit) (k : M A) : M A := m ≫= λ _, k.
Notation "m ;; k" := (seq m k) (at level 100, k at level 200,
                                right associativity).

Definition lift {A} (r : result A) : M A := λ s, (r, s).

Definition set_global (name : string) (v : value) (s : module_state)
  : module_state :=
  {| globals := <[name := v]> (globals s);
     log_filters := log_filters s;
     patches := patches s |}.

(** [name = v] *)
Definition assign (name : string) (v : value) : M unit := λ s,
  (ret tt, set_global name v s).

(** [tf.get_logger().addFilter(f)] *)
Definition addFilter (f : TFLogFilter.t) : M unit := λ s,
  (ret tt, {| globals := globals s;
              log_filters := log_filters s ++ [f];
              patches := patches s |}).

Definition add_patch (target attr : string) (v : value) (s : module_state)
  : module_state :=
  {| globals := globals s;
     log_filters := log_filters s;
     patches := patches s ++ [(target, attr, v)] |}.

(** [target.attr = v] on an object of another module *)
Definition setattr (target attr : string) (v : value) : M unit := λ s,
  (ret tt, add_patch target attr v s).

(** [target.attr], read on an object of another module *)
Definition getattr (env : environment) (target attr : string) : M value :=
  if has_attr env target attr then mret (VNative target attr)
  else lift (raise (Exn AttributeError attr)).

Definition load_module (env : environment) (m : string) : M unit :=
  match import_error env m with
  | Some e => lift (raise e)
  | None => mret tt
  end.

(** [import m as name] *)
Definition import_as (env : environment) (m name : string) : M unit :=
  load_module env m;; assign name (VModule m).

(** The names of [from m import a, b, c] are fetched and bound one after
    the other. *)
Fixpoint import_names (env : environment) (m : string)
    (names : list string) : M unit :=
  match names with
  | [] => mret tt
  | a :: names' =>
      (if has_attr env m a then assign a (VNative m a)
       else lift (raise (Exn ImportError
                           ("cannot import name " +:+ a +:+ " from " +:+ m))));;
      import_names env m names'
  end.

(** [from m import names] *)
Definition from_import (env : environment) (m : string)
    (names : list string) : M unit :=
  load_module env m;; import_names env m names.

(** [try: body except ImportError: handler] *)
Definition try_except_ImportError (body handler : M unit) : M unit := λ s,
  match body s with
  | (inl e, s') => if is_ImportError e then handler s' else (inl e, s')
  | (inr a, s') => (inr a, s')
  end.

Section Body.
Context `{Packaging}.
Variable env : environment.

(** Lines 8 to 15. *)
Definition imports : M unit :=
  from_import env "collections" ["OrderedDict"];;
  import_as env "inspect" "inspect";;
  import_as env "nengo" "nengo";;
  from_import env "nengo._vendor.scipy.sparse"
    ["linalg_interface"; "linalg_onenormest"];;
  from_import env "packaging" ["version"];;
  import_as env "tensorflow" "tf";;
  from_import env "tensorflow.python.eager" ["context"].

(** Lines 18 to 91. *)
Definition definitions : M unit :=
  assign "NoType" (VClass NoType);;
  assign "make_dummy_type" (VFunc F_make_dummy_type);;
  assign "is_dummy_type" (VFunc F_is_dummy_type);;
  assign "TFLogFilter" VTFLogFilter;;
  addFilter (TFLogFilter.__init__ false).

(** Lines 93 to 189: the two statements gated on the TensorFlow
    version. *)
Definition tensorflow_compat : M unit :=
  legacy ← lift (below (tf_version env) "2.3.0rc0");
  (if legacy : bool then
     assign "_build_map" (VFunc F_build_map);;
     assign "_build_map_helper" (VFunc F_build_map_helper)
   else
     from_import env "tensorflow.python.keras.engine.functional"
       ["_build_map"]);;
  legacy ← lift (below (tf_version env) "2.3.0rc0");
  if legacy : bool then
    from_import env "tensorflow.python.keras.engine" ["network"];;
    old_conform ← getattr env "tensorflow.python.keras.engine.network.Network"
                    "_conform_to_reference_input";
    assign "old_conform" old_conform;;
    assign "_conform_to_reference_input"
      (VFunc F_conform_to_reference_input);;
    setattr "tensorflow.python.keras.engine.network.Network"
      "_conform_to_reference_input" (VFunc F_conform_to_reference_input)
  else mret tt.

(** Lines 238 to 243. *)
Definition import_ConvolutionTranspose : M unit :=
  try_except_ImportError
    (from_import env "nengo.transforms" ["ConvolutionTranspose"];;
     from_import env "nengo.builder.transforms" ["ConvTransposeInc"])
    (assign "ConvolutionTranspose"
       (VClass (make_dummy_type "ConvolutionTranspose"));;
     assign "ConvTransposeInc"
       (VClass (make_dummy_type "ConvTransposeInc"))).

(** Lines 195 to 261. *)
Definition nengo_compat : M unit :=
  aslinearoperator ← getattr env "nengo._vendor.scipy.sparse.linalg_interface"
                       "aslinearoperator";
  setattr "nengo._vendor.scipy.sparse.linalg_onenormest"
    "aslinearoperator" aslinearoperator;;
  assign "ConvolutionTranspose"
    (VClass (make_dummy_type "ConvolutionTranspose"));;
  assign "ConvTransposeInc" (VClass (make_dummy_type "ConvTransposeInc"));;
  legacy ← lift (below (nengo_version env) "3.1.0.dev0");
  if legacy : bool then
    assign "PoissonSpiking" (VClass (make_dummy_type "PoissonSpiking"));;
    assign "RegularSpiking" (VClass (make_dummy_type "RegularSpiking"));;
    assign "StochasticSpiking"
      (VClass (make_dummy_type "StochasticSpiking"));;
    assign "Tanh" (VClass (make_dummy_type "Tanh"));;
    assign "NoTransform" (VClass (make_dummy_type "NoTransform"));;
    assign "default_transform" (VInt 1);;
    assign "conn_has_weights" (VFunc F_conn_has_weights_legacy);;
    assign "neuron_state" (VFunc F_neuron_state_legacy);;
    assign "neuron_step" (VFunc F_neuron_step_legacy);;
    assign "to_neurons" (VFunc F_to_neurons_legacy)
  else
    from_import env "nengo.neurons"
      ["PoissonSpiking"; "RegularSpiking"; "StochasticSpiking"; "Tanh"];;
    from_import env "nengo.transforms" ["NoTransform"];;
    import_ConvolutionTranspose;;
    assign "default_transform" VNone;;
    assign "conn_has_weights" (VFunc F_conn_has_weights);;
    assign "neuron_state" (VFunc F_neuron_state);;
    assign "neuron_step" (VFunc F_neuron_step);;
    assign "to_neurons" (VFunc F_to_neurons).

(** Lines 276 to 281. *)
Definition import_keras_spiking : M unit :=
  try_except_ImportError
    (from_import env "keras_spiking"
       ["SpikingActivation"; "Lowpass"; "Alpha"])
    (assign "SpikingActivation"
       (VClass (make_dummy_type "keras_spiking_SpikingActivation"));;
     assign "Lowpass" (VClass (make_dummy_type "keras_spiking_Lowpass"));;
     assign "Alpha" (VClass (make_dummy_type "keras_spiking_Alpha"))).

(** The module, top to bottom. *)
Definition compat : M unit :=
  imports;;
  definitions;;
  tensorflow_compat;;
  nengo_compat;;
  assign "eager_enabled" (VFunc F_eager_enabled);;
  import_keras_spiking.

(** Loading the module: its body run from the empty namespace. *)
Definition load : result unit * module_state := compat initial_state.

End Body.

(** The logical capability names. *)
Definition capabilities : list string :=
  ["ConvolutionTranspose"; "ConvTransposeInc"; "PoissonSpiking";
   "RegularSpiking"; "StochasticSpiking"; "Tanh"; "NoTransform";
   "default_transform"; "conn_has_weights"; "neuron_state"; "neuron_step";
   "to_neurons"; "SpikingActivation"; "Lowpass"; "Alpha"].

(** A real implementation: an object of a dependency, or a function that
    the module defines itself. *)
Definition is_implementation (v : value) : bool :=
  match v with
  | VNative _ _ | VFunc _ => true
  | _ => false
  end.

(** An unavailable marker: a class for which [is_dummy_type] holds. *)
Definition is_marker (v : value) : bool :=
  match v with
  | VClass c => is_dummy_type c
  | _ => false
  end.

(** The code path that a loaded module has taken, read off its
    bindings. *)
Inductive path := Legacy | Native.

Definition tensorflow_path (s : module_state) : option path :=
  match globals s !! "_build_map" with
  | Some (VFunc F_build_map) => Some Legacy
  | Some (VNative "tensorflow.python.keras.engine.functional" "_build_map")
    => Some Native
  | _ => None
  end.

Definition nengo_path (s : module_state) : option path :=
  match globals s !! "conn_has_weights" with
  | Some (VFunc F_conn_has_weights_legacy) => Some Legacy
  | Some (VFunc F_conn_has_weights) => Some Native
  | _ => None
  end.

(** The state in which [from m import names] ends when every name is
    found. *)
Definition imported (m : string) (names : list string) (s : module_state)
  : module_state :=
  foldl (λ s a, set_global a (VNative m a) s) s names.

(** [from m import names] raises an [ImportError]: the module cannot be
    loaded, or it lacks one of the names. *)
Definition import_fails (env : environment) (m : string)
    (names : list string) : bool :=
  match import_error env m with
  | Some e => is_ImportError e
  | None => negb (forallb (has_attr env m) names)
  end.

(** The names of the two [try] blocks, and the failure of the first
    one: one of its two imports raises an [ImportError]. *)
Definition keras_spiking_names : list string :=
  ["SpikingActivation"; "Lowpass"; "Alpha"].

Definition transpose_names : list string :=
  ["ConvolutionTranspose"; "ConvTransposeInc"].

Definition transpose_import_fails (env : environment) : bool :=
  import_fails env "nengo.transforms" ["ConvolutionTranspose"]
  || import_fails env "nengo.builder.transforms" ["ConvTransposeInc"].

(** The names that the nengo block binds on either path, and what it
    binds them to (the two transpose names of the native path apart). *)
Definition nengo_names : list string :=
  ["ConvolutionTranspose"; "ConvTransposeInc"; "PoissonSpiking";
   "RegularSpiking"; "StochasticSpiking"; "Tanh"; "NoTransform";
   "default_transform"; "conn_has_weights"; "neuron_state"; "neuron_step";
   "to_neurons"].

Definition nengo_legacy_bindings : list (string * value) :=
  [("ConvolutionTranspose", VClass (make_dummy_type "ConvolutionTranspose"));
   ("ConvTransposeInc", VClass (make_dummy_type "ConvTransposeInc"));
   ("PoissonSpiking", VClass (make_dummy_type "PoissonSpiking"));
   ("RegularSpiking", VClass (make_dummy_type "RegularSpiking"));
   ("StochasticSpiking", VClass (make_dummy_type "StochasticSpiking"));
   ("Tanh", VClass (make_dummy_type "Tanh"));
   ("NoTransform", VClass (make_dummy_type "NoTransform"));
   ("default_transform", VInt 1);
   ("conn_has_weights", VFunc F_conn_has_weights_legacy);
   ("neuron_state", VFunc F_neuron_state_legacy);
   ("neuron_step", VFunc F_neuron_step_legacy);
   ("to_neurons", VFunc F_to_neurons_legacy)].

Definition nengo_native_bindings : list (string * value) :=
  [("PoissonSpiking", VNative "nengo.neurons" "PoissonSpiking");
   ("RegularSpiking", VNative "nengo.neurons" "RegularSpiking");
   ("StochasticSpiking", VNative "nengo.neurons" "StochasticSpiking");
   ("Tanh", VNative "nengo.neurons" "Tanh");
   ("NoTransform", VNative "nengo.transforms" "NoTransform");
   ("default_transform", VNone);
   ("conn_has_weights", VFunc F_conn_has_weights);
   ("neuron_state", VFunc F_neuron_state);
   ("neuron_step", VFunc F_neuron_step);
   ("to_neurons", VFunc F_to_neurons)].

Definition transpose_native_bindings : list (string * value) :=
  [("ConvolutionTranspose",
    VNative "nengo.transforms" "ConvolutionTranspose");
   ("ConvTransposeInc",
    VNative "nengo.builder.transforms" "ConvTransposeInc")].

Definition transpose_marker_bindings : list (string * value) :=
  [("ConvolutionTranspose", VClass (make_dummy_type "ConvolutionTranspose"));
   ("ConvTransposeInc", VClass (make_dummy_type "ConvTransposeInc"))].

Definition keras_spiking_native_bindings : list (string * value) :=
  [("SpikingActivation", VNative "keras_spiking" "SpikingActivation");
   ("Lowpass", VNative "keras_spiking" "Lowpass");
   ("Alpha", VNative "keras_spiking" "Alpha")].

Definition keras_spiking_marker_bindings : list (string * value) :=
  [("SpikingActivation",
    VClass (make_dummy_type "keras_spiking_SpikingActivation"));
   ("Lowpass", VClass (make_dummy_type "keras_spiking_Lowpass"));
   ("Alpha", VClass (make_dummy_type "keras_spiking_Alpha"))].

(** The value that an association list gives to a name. *)
Fixpoint binding (name : string) (l : list (string * value))
  : option value :=
  match l with
  | [] => None
  | (n, v) :: l' => if String.eqb n name then Some v else binding name l'
  end.

(** Every pair of the list is a binding of the state. *)
Definition bound (s : module_state) (l : list (string * value)) : Prop :=
  Forall (λ nv, globals s !! nv.1 = Some nv.2) l.

(** [binds N m]: whatever the statement [m] does, and whether it returns
    or raises, it leaves the names outside [N] as they were. *)
Definition binds {A} (N : list string) (m : M A) : Prop :=
  ∀ s r s', m s = (r, s') → ∀ n, n ∉ N → globals s' !! n = globals s !! n.

(** [quiet m]: whatever the statement [m] does, it assigns no attribute
    on an object of another module. *)
Definition quiet {A} (m : M A) : Prop :=
  ∀ s r s', m s = (r, s') → patches s' = patches s.

(** The two assignments on objects of other modules: line 189, on the
    legacy TensorFlow path, and line 195. *)
Definition conform_patch : string * string * value :=
  ("tensorflow.python.keras.engine.network.Network",
   "_conform_to_reference_input", VFunc F_conform_to_reference_input).

Definition linalg_patch : string * string * value :=
  ("nengo._vendor.scipy.sparse.linalg_onenormest", "aslinearoperator",
   VNative "nengo._vendor.scipy.sparse.linalg_interface" "aslinearoperator").

(** The value of a capability is well formed: the default transform is
    the number 1 or [None]; every other capability is a real
    implementation or an unavailable marker. *)
Definition resolved (name : string) (v : value) : Prop :=
  if String.eqb name "default_transform"
  then v = VInt 1 ∨ v = VNone
  else v ≠ VNone ∧ (is_implementation v || is_marker v) = true.

(** The binding invariant as the specification words it: a real
    implementation or an unavailable marker, never [None]. *)
Definition implementation_or_marker (s : module_state) (name : string)
  : Prop :=
  ∃ v, globals s !! name = Some v
       ∧ v ≠ VNone ∧ (is_implementation v || is_marker v) = true.

(** An installation in which every import succeeds. *)
Definition installation (tf nengo : string) : environment :=
  {| tf_version := tf; nengo_version := nengo;
     import_error := λ _, None; has_attr := λ _ _, true |}.

(** An installation without [keras_spiking] and with a nengo that lacks
    the transposed convolution. *)
Definition bare_installation (tf nengo : string) : environment :=
  {| tf_version := tf;
     nengo_version := nengo;
     import_error := λ m,
       if String.eqb m "keras_spiking"
       then Some (Exn ModuleNotFoundError "No module named 'keras_spiking'")
       else None;
     has_attr := λ m a, negb (String.eqb a "ConvolutionTranspose") |}.

(** An installation whose [keras_spiking] fails to load with an error
    that is not an [ImportError]. *)
Definition broken_installation (tf nengo : string) : environment :=
  {| tf_version := tf;
     nengo_version := nengo;
     import_error := λ m,
       if String.eqb m "keras_spiking"
       then Some (Exn RuntimeError "keras_spiking cannot be initialised")
       else None;
     has_attr := λ m a, true |}.

(** The paths taken on an installation in which every import succeeds. *)
Definition paths `{Packaging} (tf nengo : string)
  : option path * option path :=
  let s := (load (installation tf nengo)).2 in
  (tensorflow_path s, nengo_path s).

End Resolver.

(** ** The vendored graph traversal (compat.py, lines 95 to 165) *)

Module BuildMap.
Import Py.

(** Tensors, layers and nodes are objects; they are compared and hashed
    by identity, which an address stands for. *)
Definition tensor := positive.
Definition layer := positive.
Definition node := positive.

(** The nested structures that [tf.nest.flatten] takes apart: a leaf,
    or a sequence of structures. *)
Inductive nest (A : Type) :=
| Leaf (a : A)
| Seq (l : list (nest A)).
Arguments Leaf {A} a.
Arguments Seq {A} l.

(** [tf.nest.flatten(x)]: the leaves from left to right. *)
Fixpoint flatten {A} (x : nest A) : list A :=
  match x with
  | Leaf a => [a]
  | Seq l =>
      (fix go (l : list (nest A)) : list A :=
         match l with
         | [] => []
         | y :: l' => flatten y ++ go l'
         end) l
  end.

(** The truth value of a structure: an object is true, a sequence is
    true when it is not empty. *)
Definition truthy {A} (x : nest A) : bool :=
  match x with
  | Leaf _ => true
  | Seq [] => false
  | Seq (_ :: _) => true
  end.

(** The attributes of a Keras node that the traversal reads or writes;
    [layer_alias] is the attribute [node.layer], unset at first. *)
Record KerasNode := {
  inbound_layers : nest layer;
  input_tensors : nest tensor;
  outbound_layer : layer;
  layer_alias : option layer
}.

(** The objects of a graph: [tensor._keras_history], a triple of the
    layer, the node index and the tensor index; [layer._inbound_nodes];
    the nodes; and what [layer.name] and [str(tensor)] give. *)
Record Graph := {
  keras_history : gmap tensor (layer * Z * Z);
  inbound_nodes : gmap layer (list node);
  nodes : gmap node KerasNode;
  layer_name : layer → string;
  tensor_str : tensor → string
}.

(** [layer, node_index, _ = tensor._keras_history] and
    [node = layer._inbound_nodes[node_index]]: the layer, the node and
    its attributes.  An address that holds no object is reported as a
    missing attribute. *)
Definition node_of (g : Graph) (t : tensor)
  : result (layer * node * KerasNode) :=
  match keras_history g !! t with
  | None => raise (Exn AttributeError "_keras_history")
  | Some (l, node_index, _) =>
      match inbound_nodes g !! l with
      | None => raise (Exn AttributeError "_inbound_nodes")
      | Some ns =>
          bind (index ns node_index) (λ n,
            match nodes g !! n with
            | None => raise (Exn AttributeError "inbound_layers")
            | Some nd => ret (l, n, nd)
            end)
      end
  end.

(** The state of a traversal: the four collections that [_build_map]
    creates and its helper updates in place. *)
Record traversal := {
  finished_nodes : gset node;
  nodes_in_progress : gset node;
  nodes_in_decreasing_depth : list node;
  layer_indices : gmap layer nat
}.

(** A call returns, raises, or has not returned within the number of
    nested calls that it was given. *)
Inductive outcome (A : Type) :=
| Done (a : A)
| Raised (e : exn)
| OutOfFuel.
Arguments Done {A} a.
Arguments Raised {A} e.
Arguments OutOfFuel {A}.

(** [for a in l: f(a)], on a state. *)
Fixpoint for_each {A S} (f : A → S → outcome S) (l : list A) (st : S)
  : outcome S :=
  match l with
  | [] => Done st
  | a :: l' =>
      match f a st with
      | Done st' => for_each f l' st'
      | Raised e => Raised e
      | OutOfFuel => OutOfFuel
      end
  end.

Definition dquote : string := String "034" EmptyString.

Definition cycle_error (g : Graph) (t : tensor) (l : layer) : exn :=
  Exn ValueError
    ("The tensor " +:+ tensor_str g t +:+ " at layer " +:+ dquote
       +:+ layer_name g l +:+ dquote +:+ " is part of a cycle.").

(** [if layer not in layer_indices: layer_indices[layer] = len(layer_indices)] *)
Definition store_index (l : layer) (indices : gmap layer nat)
  : gmap layer nat :=
  match indices !! l with
  | Some _ => indices
  | None => <[l := size indices]> indices
  end.

(** The state in which the helper recurses into the inputs of [n]. *)
Definition enter (l : layer) (n : node) (st : traversal) : traversal :=
  {| finished_nodes := finished_nodes st;
     nodes_in_progress := {[n]} ∪ nodes_in_progress st;
     nodes_in_decreasing_depth := nodes_in_decreasing_depth st;
     layer_indices := store_index l (layer_indices st) |}.

(** The last three statements of the helper; [set.remove] raises
    [KeyError] on a missing element. *)
Definition leave (n : node) (st : traversal) : outcome traversal :=
  if decide (n ∈ nodes_in_progress st)
  then Done {| finished_nodes := {[n]} ∪ finished_nodes st;
               nodes_in_progress := nodes_in_progress st ∖ {[n]};
               nodes_in_decreasing_depth :=
                 nodes_in_decreasing_depth st ++ [n];
               layer_indices := layer_indices st |}
  else Raised (Exn (OtherError "KeyError") "node").

(** The tensors that the helper recurses into at a node. *)
Definition inputs_of (nd : KerasNode) : list tensor :=
  if truthy (inbound_layers nd) then flatten (input_tensors nd) else [].

Fixpoint _build_map_helper (fuel : nat) (g : Graph) (t : tensor)
    (st : traversal) : outcome traversal :=
  match fuel with
  | O => OutOfFuel
  | S fuel =>
      match node_of g t with
      | inl e => Raised e
      | inr (l, n, nd) =>
          if decide (n ∈ finished_nodes st) then Done st
          else if decide (n ∈ nodes_in_progress st)
          then Raised (cycle_error g t l)
          else
            match for_each (_build_map_helper fuel g) (inputs_of nd)
                    (enter l n st) with
            | Done st' => leave n st'
            | Raised e => Raised e
            | OutOfFuel => OutOfFuel
            end
      end
  end.

Definition initial : traversal :=
  {| finished_nodes := ∅; nodes_in_progress := ∅;
     nodes_in_decreasing_depth := []; layer_indices := ∅ |}.

(** [node.layer = node.outbound_layer] *)
Definition set_layer_alias (nd : KerasNode) : KerasNode :=
  {| inbound_layers := inbound_layers nd;
     input_tensors := input_tensors nd;
     outbound_layer := outbound_layer nd;
     layer_alias := Some (outbound_layer nd) |}.

Definition annotate (g : Graph) (n : node) : Graph :=
  {| keras_history := keras_history g;
     inbound_nodes := inbound_nodes g;
     nodes := alter set_layer_alias n (nodes g);
     layer_name := layer_name g;
     tensor_str := tensor_str g |}.

(** No chain of nested calls is longer than the number of nodes, as a
    node is in progress while its inputs are visited.  The recursion
    limit of the interpreter is not part of the model. *)
Definition enough_fuel (g : Graph) : nat := S (size (nodes g)).

(** [_build_map(outputs)]: the graph with its annotated nodes, and the
    pair that the function returns. *)
Definition _build_map (g : Graph) (outputs : nest tensor)
  : outcome (Graph * (list node * gmap layer nat)) :=
  match for_each (_build_map_helper (enough_fuel g) g) (flatten outputs)
          initial with
  | Done st =>
      Done (foldl annotate g (nodes_in_decreasing_depth st),
            (nodes_in_decreasing_depth st, layer_indices st))
  | Raised e => Raised e
  | OutOfFuel => OutOfFuel
  end.

(** *** Graphs *)

Definition node_id_of (g : Graph) (t : tensor) : option node :=
  match node_of g t with
  | inr (_, n, _) => Some n
  | inl _ => None
  end.

(** The input nodes of a node: the nodes of the tensors that the helper
    recurses into. *)
Definition successors (g : Graph) (n : node) : list node :=
  match nodes g !! n with
  | Some nd => omap (node_id_of g) (inputs_of nd)
  | None => []
  end.

(** [edge g n m]: [m] is an input node of [n]. *)
Definition edge (g : Graph) (n m : node) : Prop := m ∈ successors g n.

Definition acyclic (g : Graph) : Prop := ∀ n, ¬ tc (edge g) n n.

(** Every tensor that the traversal can come to has a node. *)
Definition well_formed (g : Graph) : bool :=
  forallb (λ nnd, forallb (λ t, returns (node_of g t)) (inputs_of nnd.2))
    (map_to_list (nodes g)).

Definition valid_outputs (g : Graph) (outputs : nest tensor) : bool :=
  forallb (λ t, returns (node_of g t)) (flatten outputs).

(** [n] is the node of the tensor [t], or an input node of it at any
    depth. *)
Definition reaches (g : Graph) (t : tensor) (n : node) : Prop :=
  ∃ m, node_id_of g t = Some m ∧ rtc (edge g) m n.

(** [n] is reached from one of the outputs. *)
Definition reachable (g : Graph) (outputs : list tensor) (n : node) : Prop :=
  ∃ t, t ∈ outputs ∧ reaches g t n.

(** The list lists [n] exactly once. *)
Definition listed_once (n : node) (order : list node) : Prop :=
  ∃ l1 l2, order = l1 ++ (n :: l2) ∧ (n ∉ l1) ∧ (n ∉ l2).

(** Every node of the list comes after its input nodes. *)
Definition inputs_first (g : Graph) (order : list node) : Prop :=
  ∀ i n m, order !! i = Some n → edge g n m →
           ∃ j, j < i ∧ order !! j = Some m.

(** The indices number the layers from 0 on, and every listed node was
    reached through a tensor whose layer has an index. *)
Definition layers_indexed (g : Graph) (order : list node)
    (indices : gmap layer nat) : Prop :=
  (∀ l i, indices !! l = Some i → i < size indices)
  ∧ (∀ l l' i, indices !! l = Some i → indices !! l' = Some i → l = l')
  ∧ (∀ n, n ∈ order →
          ∃ t l nd, node_of g t = inr (l, n, nd) ∧ is_Some (indices !! l)).

(** Every listed node of [g'] has its [layer] attribute set to its
    [outbound_layer]; nothing else differs from [g]. *)
Definition annotated (g g' : Graph) (order : list node) : Prop :=
  (∀ n, n ∈ order →
        ∃ nd, nodes g !! n = Some nd
              ∧ nodes g' !! n = Some (set_layer_alias nd))
  ∧ (∀ n, n ∉ order → nodes g' !! n = nodes g !! n)
  ∧ keras_history g' = keras_history g
  ∧ inbound_nodes g' = inbound_nodes g.

(** A ranking of the nodes that decreases along every edge. *)
Definition ranked (g : Graph) (rank : node → nat) : bool :=
  forallb (λ nnd, forallb (λ m, rank m <? rank nnd.1)
                    (successors g nnd.1))
    (map_to_list (nodes g)).

(** What the traversal keeps true between calls: the list holds the
    finished nodes, each once; no finished node is in progress; every
    input node of a listed node is listed before it; every listed node
    was reached through a tensor whose layer has an index; the indices
    are the numbers below their count, each used once. *)
Record invariant (g : Graph) (st : traversal) : Prop := {
  inv_NoDup : NoDup (nodes_in_decreasing_depth st);
  inv_finished :
    ∀ n, n ∈ nodes_in_decreasing_depth st ↔ n ∈ finished_nodes st;
  inv_disjoint : ∀ n, n ∈ finished_nodes st → n ∉ nodes_in_progress st;
  inv_sorted :
    ∀ i n m, nodes_in_decreasing_depth st !! i = Some n → edge g n m →
             ∃ j, j < i ∧ nodes_in_decreasing_depth st !! j = Some m;
  inv_layers :
    ∀ n, n ∈ nodes_in_decreasing_depth st →
         ∃ t l nd, node_of g t = inr (l, n, nd)
                   ∧ is_Some (layer_indices st !! l);
  inv_index_bound :
    ∀ l i, layer_indices st !! l = Some i → i < size (layer_indices st);
  inv_index_inj :
    ∀ l l' i, layer_indices st !! l = Some i →
              layer_indices st !! l' = Some i → l = l'
}.

(** What a returning call on each of [ts] has done to the state [st]. *)
Definition visited (g : Graph) (st st' : traversal) (ts : list tensor)
  : Prop :=
  invariant g st'
  ∧ nodes_in_progress st' = nodes_in_progress st
  ∧ finished_nodes st ⊆ finished_nodes st'
  ∧ layer_indices st ⊆ layer_indices st'
  ∧ ∀ t, t ∈ ts → ∃ n, node_id_of g t = Some n ∧ n ∈ finished_nodes st'.

End BuildMap.

(** *** Two small graphs

    [diamond]: an input layer (1) feeds two layers (2 and 3) whose outputs
    a fourth layer (4) merges; the node of the input layer lists its own
    tensor as its input, as Keras input nodes do, and has no inbound
    layer.  [looped]: two layers that feed each other. *)

Module Graphs.
Import BuildMap.

Definition names (prefix : string) (p : positive) : string :=
  prefix +:+ pretty (Pos.to_nat p).

Definition diamond : Graph :=
  {| keras_history :=
       list_to_map [(1, (1, 0%Z, 0%Z)); (2, (2, 0%Z, 0%Z));
                    (3, (3, 0%Z, 0%Z)); (4, (4, (-1)%Z, 0%Z))]%positive;
     inbound_nodes :=
       list_to_map [(1, [11]); (2, [12]); (3, [13]); (4, [14])]%positive;
     nodes :=
       list_to_map
         [(11, {| inbound_layers := Seq []; input_tensors := Seq [Leaf 1];
                  outbound_layer := 1; layer_alias := None |});
          (12, {| inbound_layers := Leaf 1; input_tensors := Leaf 1;
                  outbound_layer := 2; layer_alias := None |});
          (13, {| inbound_layers := Leaf 1; input_tensors := Leaf 1;
                  outbound_layer := 3; layer_alias := None |});
          (14, {| inbound_layers := Seq [Leaf 2; Leaf 3];
                  input_tensors := Seq [Leaf 2; Leaf 3];
                  outbound_layer := 4; layer_alias := None |})]%positive;
     layer_name := names "layer_";
     tensor_str := names "tensor_" |}.

Definition diamond_outputs : nest tensor := Seq [Leaf 4; Leaf 3]%positive.

Definition looped : Graph :=
  {| keras_history :=
       list_to_map [(2, (2, 0%Z, 0%Z)); (3, (3, 0%Z, 0%Z))]%positive;
     inbound_nodes := list_to_map [(2, [12]); (3, [13])]%positive;
     nodes :=
       list_to_map
         [(12, {| inbound_layers := Leaf 3; input_tensors := Leaf 3;
                  outbound_layer := 2; layer_alias := None |});
          (13, {| inbound_layers := Leaf 2; input_tensors := Leaf 2;
                  outbound_layer := 3; layer_alias := None |})]%positive;
     layer_name := names "layer_";
     tensor_str := names "tensor_" |}.

Definition looped_outputs : nest tensor := Leaf 3%positive.

End Graphs.

(** ** Markers through inheritance *)

Module Inheritance.
Import Py Marker.

(** The classes that get their [__init__] from [NoType]: [NoType] itself
    and the classes derived from one of them by a class body that
    defines no [__init__], such as the empty body of [make_dummy_type]. *)
Inductive inherits_init : pyclass → Prop :=
| inherits_NoType : inherits_init NoType
| inherits_derived name base dict :
    inherits_init base → assoc "__init__" dict = None →
    inherits_init (PyType name base dict).

End Inheritance.

(** ** The nengo shims of the legacy branch (compat.py, lines 209 to 231) *)

Module Shims.
Import Py.

Section Shims.

(** The objects that a neuron operator works on (signals, arrays); the
    shims only pass them on. *)
Variable A : Type.

(** An [OrderedDict]: the items in the order in which their keys were
    first set. *)
Definition odict : Type := list (string * A).

(** [d[k] = v] *)
Fixpoint od_set (k : string) (v : A) (d : odict) : odict :=
  match d with
  | [] => [(k, v)]
  | (k', v') :: d' =>
      if String.eqb k' k then (k', v) :: d' else (k', v') :: od_set k v d'
  end.

(** [OrderedDict(pairs)] *)
Definition od_of_pairs (pairs : list (string * A)) : odict :=
  foldl (λ d kv, od_set kv.1 kv.2 d) [] pairs.

(** [d.get(k)] *)
Fixpoint od_get (k : string) (d : odict) : option A :=
  match d with
  | [] => None
  | (k', v) :: d' => if String.eqb k' k then Some v else od_get k d'
  end.

(** [list(d.keys())] and [list(d.values())] *)
Definition od_keys (d : odict) : list string := d.*1.
Definition od_values (d : odict) : list A := d.*2.

(** What the shims read of a [SimNeurons] operator of nengo before 3.1:
    the parameter names of [neuron_op.neurons.step_math], as
    [inspect.signature] lists them for the bound method, and
    [neuron_op.states]. *)
Record SimNeurons := {
  step_math_params : list string;
  states : list A
}.

(** [def conn_has_weights(conn): return True] *)
Definition conn_has_weights {Conn : Type} (conn : Conn) : bool := true.

(** [neuron_state], legacy: the names are the parameters after the third;
    the [assert] raises [AssertionError] (assertions enabled); [zip]
    pairs the names with the states. *)
Definition neuron_state (neuron_op : SimNeurons) : result odict :=
  let names := drop 3 (step_math_params neuron_op) in
  if Nat.eqb (length names) (length (states neuron_op))
  then ret (od_of_pairs (zip names (states neuron_op)))
  else raise (Exn (OtherError "AssertionError") "").

(** The call that a shim makes on [neuron_op.neurons]. *)
Inductive call :=
| StepMath (args : list A)
| Step (args : list A) (kwargs : list (string * A)).

(** [neuron_step], legacy:
    [neuron_op.neurons.step_math(dt, J, output, *state.values())] *)
Definition neuron_step (dt J output : A) (state : odict) : call :=
  StepMath (dt :: J :: output :: od_values state).

End Shims.

End Shims.

(** ** The patch of [_conform_to_reference_input] (compat.py, lines 177 to 189) *)

Module Conform.
Import Py.

Section Conform.

Variables History Data Self Ref : Type.

(** A tensor: [getattr(tensor, "_keras_history", None)] and the rest of
    it. *)
Record Tensor := {
  _keras_history : option History;
  data : Data
}.

(** [tensor._keras_history = h] *)
Definition set_keras_history (h : History) (tensor : Tensor) : Tensor :=
  {| _keras_history := Some h; data := data tensor |}.

(** The method that the patch wraps, as a function that may raise. *)
Definition method : Type := Self → Tensor → Ref → result Tensor.

(** The replacement, for [old_conform] the method that it wraps. *)
Definition _conform_to_reference_input (old_conform : method) : method :=
  λ self tensor ref_input,
    let keras_history := _keras_history tensor in
    bind (old_conform self tensor ref_input) (λ tensor,
      match keras_history with
      | Some h => ret (set_keras_history h tensor)
      | None => ret tensor
      end).

End Conform.

End Conform.

(** ** The layer indices and the nodes of a traversal *)

Module Indices.
Import Py BuildMap.

(** The indices are the numbers below their count, each layer with an
    index is the layer of a tensor of a node that the traversal has
    entered, and there are no more indexed layers than such nodes. *)
Definition numbered (g : Graph) (st : traversal) : Prop :=
  (∀ i, i < size (layer_indices st) →
        ∃ l, layer_indices st !! l = Some i)
  ∧ (∀ l, is_Some (layer_indices st !! l) →
          ∃ t n nd, node_of g t = inr (l, n, nd)
                    ∧ (n ∈ finished_nodes st ∨ n ∈ nodes_in_progress st))
  ∧ size (layer_indices st)
    ≤ size (finished_nodes st ∪ nodes_in_progress st).

End Indices.

(** ** Whether the module loads (compat.py, lines 8 to 15, 91 to 96,
    167 to 197 and 236 to 281) *)

Module Loading.
Import Py Versions Resolver.

(** [yields m a]: from every state the statement [m] returns [a]. *)
Definition yields {A} (m : M A) (a : A) : Prop :=
  ∀ s, ∃ s', m s = (inr a, s').

(** [silent m]: whatever the statement [m] does, it attaches no filter to
    TensorFlow's logger. *)
Definition silent {A} (m : M A) : Prop :=
  ∀ s r s', m s = (r, s') → log_filters s' = log_filters s.

(** [contained m]: from every state the statement [m] returns, or it
    raises an [ImportError]. *)
Definition contained (m : M unit) : Prop :=
  ∀ s, (∃ s', m s = (inr tt, s'))
       ∨ (∃ e s', m s = (inl e, s') ∧ is_ImportError e = true).

(** [from m import names] finds the module and every name. *)
Definition import_ok (env : environment) (mn : string * list string)
  : bool :=
  match import_error env mn.1 with
  | Some _ => false
  | None => forallb (has_attr env mn.1) mn.2
  end.

(** The imports of a [try ... except ImportError] block, run one after
    the other, do not escape the block: each one succeeds until one
    raises an [ImportError], or all succeed. *)
Fixpoint guarded_ok (env : environment)
    (imports : list (string * list string)) : bool :=
  match imports with
  | [] => true
  | mn :: imports' =>
      import_fails env mn.1 mn.2
      || (import_ok env mn && guarded_ok env imports')
  end.

(** The imports that stand outside a [try] block: those at the top of
    the module, and those on either path of the two version tests. *)
Definition top_imports : list (string * list string) :=
  [("collections", ["OrderedDict"]);
   ("inspect", []);
   ("nengo", []);
   ("nengo._vendor.scipy.sparse", ["linalg_interface"; "linalg_onenormest"]);
   ("packaging", ["version"]);
   ("tensorflow", []);
   ("tensorflow.python.eager", ["context"])].

Definition tensorflow_imports (tf_legacy : bool)
  : list (string * list string) :=
  if tf_legacy
  then [("tensorflow.python.keras.engine", ["network"])]
  else [("tensorflow.python.keras.engine.functional", ["_build_map"])].

Definition nengo_imports (nengo_legacy : bool)
  : list (string * list string) :=
  if nengo_legacy then []
  else [("nengo.neurons",
         ["PoissonSpiking"; "RegularSpiking"; "StochasticSpiking"; "Tanh"]);
        ("nengo.transforms", ["NoTransform"])].

Definition unguarded_imports (tf_legacy nengo_legacy : bool)
  : list (string * list string) :=
  top_imports ++ tensorflow_imports tf_legacy ++ nengo_imports nengo_legacy.

(** The attributes that the body reads on objects of other modules. *)
Definition attributes_read (tf_legacy : bool) : list (string * string) :=
  (if tf_legacy
   then [("tensorflow.python.keras.engine.network.Network",
          "_conform_to_reference_input")]
   else [])
  ++ [("nengo._vendor.scipy.sparse.linalg_interface", "aslinearoperator")].

(** The imports of the two [try] blocks. *)
Definition transpose_imports : list (string * list string) :=
  [("nengo.transforms", ["ConvolutionTranspose"]);
   ("nengo.builder.transforms", ["ConvTransposeInc"])].

Definition keras_spiking_imports : list (string * list string) :=
  [("keras_spiking", keras_spiking_names)].

(** The installation has what the body needs: both installed versions
    and both thresholds parse, every import outside a [try] block and
    every attribute read succeeds, and no import of a [try] block raises
    anything but an [ImportError]. *)
Definition loadable `{Packaging} (env : environment) : bool :=
  match below (tf_version env) "2.3.0rc0",
        below (nengo_version env) "3.1.0.dev0" with
  | inr tf_legacy, inr nengo_legacy =>
      forallb (import_ok env) (unguarded_imports tf_legacy nengo_legacy)
      && forallb (λ oa, has_attr env oa.1 oa.2) (attributes_read tf_legacy)
      && (nengo_legacy || guarded_ok env transpose_imports)
      && guarded_ok env keras_spiking_imports
  | _, _ => false
  end.

End Loading.

(** * Part II: properties *)

(** ** Strings *)

Section StringFacts.
Import Py.

Lemma startswith_spec (s p : string) :
  startswith s p = true ↔ ∃ rest, s = p +:+ rest.
Proof.
  revert s; induction p as [|a p IH]; intros s; simpl.
  - split; [intros _; by exists s | done].
  - destruct s as [|b s].
    + split; [done | intros [rest Hrest]; discriminate].
    + rewrite andb_true_iff, Ascii.eqb_eq, IH. split.
      * intros [-> [rest ->]]. by exists rest.
      * intros [rest Hrest]. injection Hrest as -> ->. eauto.
Qed.

Lemma contains_spec (s p : string) :
  contains s p = true ↔ ∃ before after, s = before +:+ p +:+ after.
Proof.
  induction s as [|b s IH]; simpl.
  - rewrite orb_false_r, startswith_spec. split.
    + intros [rest ->]. by exists EmptyString, rest.
    + intros [before [after H]]. destruct before; [by exists after | discriminate].
  - rewrite orb_true_iff, IH.
    change (startswith (String b s) p = true
            ∨ (∃ before after, s = before +:+ p +:+ after)
            ↔ ∃ before after, String b s = before +:+ p +:+ after).
    rewrite startswith_spec. split.
    + intros [[rest ->] | [before [after ->]]].
      * by exists EmptyString, rest.
      * by exists (String b before), after.
    + intros [before [after H]]. destruct before as [|c before].
      * left. by exists after.
      * right. injection H as -> ->. eauto.
Qed.

Lemma append_assoc (s1 s2 s3 : string) :
  (s1 +:+ s2) +:+ s3 = s1 +:+ (s2 +:+ s3).
Proof.
  induction s1 as [|a s1 IH]; [done |].
  change (String a ((s1 +:+ s2) +:+ s3) = String a (s1 +:+ (s2 +:+ s3))).
  by f_equal.
Qed.

Lemma lower_app (s1 s2 : string) :
  lower (s1 +:+ s2) = lower s1 +:+ lower s2.
Proof. induction s1 as [|a s1 IH]; simpl; [done | by rewrite IH]. Qed.

Lemma lower_split (s x y : string) :
  lower s = x +:+ y → ∃ x' y', s = x' +:+ y' ∧ lower x' = x ∧ lower y' = y.
Proof.
  revert s; induction x as [|a x IH]; intros s H; simpl in H.
  - by exists EmptyString, s.
  - destruct s as [|b s]; [discriminate |].
    simpl in H. injection H as Ha Hs.
    destruct (IH _ Hs) as (x' & y' & -> & Hx & Hy).
    exists (String b x'), y'. simpl. by rewrite Ha, Hx.
Qed.

Lemma contains_lower_spec (s p : string) :
  contains (lower s) p = true
  ↔ ∃ before mid after, s = before +:+ mid +:+ after ∧ lower mid = p.
Proof.
  rewrite contains_spec. split.
  - intros (before & after & H).
    apply lower_split in H as (b' & r & -> & _ & H).
    apply lower_split in H as (m' & a' & -> & Hm & _).
    by exists b', m', a'.
  - intros (before & mid & after & -> & <-).
    exists (lower before), (lower after). by rewrite !lower_app.
Qed.

Lemma eq_str_spec (v : value) (s : string) :
  eq_str v s = true ↔ v = VStr s.
Proof.
  destruct v; simpl; try (split; [done | discriminate]).
  rewrite String.eqb_eq. split; [by intros -> | by intros [= ->]].
Qed.

End StringFacts.

(** ** Unavailable markers *)

Section MarkerFacts.
Import Py Marker.

Lemma issubclass_NoType_spec (t : pyclass) :
  issubclass_NoType t = true ↔ subclass t NoType.
Proof.
  unfold issubclass_NoType. split.
  - induction t as [| |name base IH dict]; simpl; try done.
    + intros _. constructor.
    + intros H. constructor. by apply IH.
  - intros H. remember NoType as c eqn:Hc.
    induction H as [c| |name base dict c H IH]; subst; simpl; try done.
    by apply IH.
Qed.

(** C1: calling the base marker [NoType], or any type that
    [make_dummy_type] returns, whatever its name, with any positional and
    keyword arguments raises [RuntimeError("cannot instantiate")]; no
    instance is produced. *)
Theorem marker_instantiation_raises :
  ∀ (args : list value) (kwargs : list (string * value)),
    instantiate NoType args kwargs
      = raise (Exn RuntimeError "cannot instantiate")
    ∧ ∀ name : string,
        instantiate (make_dummy_type name) args kwargs
          = raise (Exn RuntimeError "cannot instantiate").
Proof. intros args kwargs. split; [reflexivity | intros name; reflexivity]. Qed.

(** C10: [is_dummy_type (make_dummy_type name)] is [True] for every
    name, and [is_dummy_type t] is [False] for every type [t] that is
    not a subclass of [NoType]. *)
Theorem is_dummy_type_make_dummy_type :
  (∀ name : string, is_dummy_type (make_dummy_type name) = true)
  ∧ (∀ t : pyclass, ¬ subclass t NoType → is_dummy_type t = false).
Proof.
  split.
  - intros name. reflexivity.
  - intros t Ht. unfold is_dummy_type.
    destruct (issubclass_NoType t) eqn:E; [|done].
    by apply issubclass_NoType_spec in E.
Qed.

Lemma is_dummy_type_make_dummy_type_witness :
  is_dummy_type (make_dummy_type "Tanh") = true
  ∧ ¬ subclass (PyType "Dense" PyObject []) NoType
  ∧ is_dummy_type (PyType "Dense" PyObject []) = false.
Proof.
  assert (H : ¬ subclass (PyType "Dense" PyObject []) NoType).
  { intros H. inversion H as [| |? ? ? ? H']; subst. inversion H'. }
  split; [apply (proj1 is_dummy_type_make_dummy_type) |].
  split; [exact H | apply (proj2 is_dummy_type_make_dummy_type), H].
Defined.

End MarkerFacts.

(** ** The log filter *)

Section LogFilterFacts.
Import Py TFLogFilter.

Variable getMessage : LogRecord → string.

Lemma get_session_pattern_spec (record : LogRecord) :
  (1 <? length (args record))%nat
  && match args record !! 1%nat with
     | Some a => eq_str a "tf.keras.backend.get_session"
     | None => false
     end = true
  ↔ get_session_pattern record.
Proof.
  unfold get_session_pattern.
  rewrite andb_true_iff, Nat.ltb_lt.
  destruct (args record !! 1%nat) as [a|].
  - rewrite eq_str_spec. split; intros [? H]; split; congruence.
  - split; intros [? ?]; done.
Qed.

Lemma steps_run_pattern_spec (record : LogRecord) :
  startswith (msg record) "Output steps_run missing from loss dictionary"
    = true
  ↔ steps_run_pattern record.
Proof. apply startswith_spec. Qed.

Lemma deprecation_flavored_spec (record : LogRecord) :
  contains (pathname record) "deprecation.py"
  || contains (lower (msg record)) "deprecated" = true
  ↔ deprecation_flavored record.
Proof.
  unfold deprecation_flavored, occurs, occurs_nocase.
  rewrite orb_true_iff, contains_spec, contains_lower_spec. tauto.
Qed.

Lemma filter_spurious (self : t) (record : LogRecord) :
  spurious record → filter getMessage self record = ret false.
Proof.
  intros [H | H]; unfold filter.
  - apply get_session_pattern_spec in H. by rewrite H.
  - apply steps_run_pattern_spec in H. rewrite H.
    by destruct (_ && _).
Qed.

Lemma filter_not_spurious (self : t) (record : LogRecord) :
  ¬ spurious record →
  filter getMessage self record =
    if err_on_deprecation self
       && (contains (pathname record) "deprecation.py"
           || contains (lower (msg record)) "deprecated")
    then raise (Exn AttributeError
                  ("Deprecation warning detected:"
                     +:+ String "010" (getMessage record)))
    else ret true.
Proof.
  intros H. unfold filter.
  destruct (_ && match _ with Some _ => _ | None => _ end) eqn:E1.
  { exfalso. apply H. left. by apply get_session_pattern_spec. }
  destruct (startswith _ _) eqn:E2.
  { exfalso. apply H. right. by apply steps_run_pattern_spec. }
  done.
Qed.




End LogFilterFacts.




(** ** Capability resolution *)

Section MonadFacts.
Import Py Marker Versions Resolver.

Lemma bind_inr {A B} (m : M A) (k : A → M B) s b s' :
  (m ≫= k) s = (inr b, s') →
  ∃ a s1, m s = (inr a, s1) ∧ k a s1 = (inr b, s').
Proof.
  unfold mbind, M_bind. destruct (m s) as [[e|a] s1]; [done | eauto].
Qed.

Lemma seq_inr {A} (m : M unit) (k : M A) s b s' :
  (m;; k) s = (inr b, s') →
  ∃ s1, m s = (inr tt, s1) ∧ k s1 = (inr b, s').
Proof.
  intros Hs. apply bind_inr in Hs as ([] & s1 & ? & ?). eauto.
Qed.

Lemma seq_run {A} (m : M unit) (k : M A) s s1 :
  m s = (inr tt, s1) → (m;; k) s = k s1.
Proof. intros Hm. unfold seq, mbind, M_bind. by rewrite Hm. Qed.

Lemma lift_inr {A} (r : result A) s a s' :
  lift r s = (inr a, s') → r = inr a ∧ s' = s.
Proof. unfold lift. by intros [= -> ->]. Qed.

Lemma assign_run name v s : assign name v s = (inr tt, set_global name v s).
Proof. reflexivity. Qed.

Lemma lookup_set_global_eq name v s :
  globals (set_global name v s) !! name = Some v.
Proof. apply lookup_insert_eq. Qed.

Lemma lookup_set_global_ne name name' v s :
  String.eqb name name' = false →
  globals (set_global name v s) !! name' = globals s !! name'.
Proof.
  intros Hne. apply lookup_insert_ne. intros ->.
  by rewrite String.eqb_refl in Hne.
Qed.

Lemma load_module_inr env m s s' :
  load_module env m s = (inr tt, s') → import_error env m = None ∧ s' = s.
Proof.
  unfold load_module. destruct (import_error env m); [done |].
  by intros [= ->].
Qed.

Lemma import_names_inr env m names s s' :
  import_names env m names s = (inr tt, s') →
  s' = imported m names s ∧ Forall (λ a, has_attr env m a = true) names.
Proof.
  revert s; induction names as [|a names IH]; intros s; simpl.
  - by intros [= ->].
  - intros Hs. apply seq_inr in Hs as (s1 & H1 & Hs).
    destruct (has_attr env m a) eqn:Ha; [|done].
    injection H1 as <-. apply IH in Hs as [-> ?]. by split; [|constructor].
Qed.

Lemma from_import_inr env m names s s' :
  from_import env m names s = (inr tt, s') →
  s' = imported m names s
  ∧ import_error env m = None
  ∧ Forall (λ a, has_attr env m a = true) names.
Proof.
  intros Hs. apply seq_inr in Hs as (s1 & H1 & Hs).
  apply load_module_inr in H1 as [? ->].
  by apply import_names_inr in Hs as [-> ?].
Qed.

Lemma from_import_run env m names s :
  import_error env m = None →
  Forall (λ a, has_attr env m a = true) names →
  from_import env m names s = (inr tt, imported m names s).
Proof.
  intros Hm Hn. unfold from_import, load_module. rewrite Hm.
  change ((mret tt;; import_names env m names) s)
    with (import_names env m names s).
  revert s; induction Hn as [|a names Ha Hn IH]; intros s; simpl; [done |].
  rewrite Ha. erewrite seq_run by reflexivity. apply IH.
Qed.

Lemma try_except_ImportError_inr body handler s s' :
  try_except_ImportError body handler s = (inr tt, s') →
  body s = (inr tt, s')
  ∨ ∃ e s1, body s = (inl e, s1) ∧ is_ImportError e = true
            ∧ handler s1 = (inr tt, s').
Proof.
  unfold try_except_ImportError.
  destruct (body s) as [[e|[]] s1]; [|by left].
  destruct (is_ImportError e) eqn:He; [|done]. right. eauto.
Qed.

Lemma below_inr `{Packaging} installed threshold b :
  below installed threshold = inr b →
  ∃ v t, parse installed = Some v ∧ parse threshold = Some t
         ∧ b = version_lt v t.
Proof.
  unfold below. destruct (parse installed) as [v|]; [|done].
  destruct (parse threshold) as [t|]; [|done].
  intros [= <-]. eauto.
Qed.

Lemma binds_ret {A} N (a : A) : binds N (mret a).
Proof. by intros s r s' [= <- <-]. Qed.

Lemma binds_lift {A} N (r : result A) : binds N (lift r).
Proof. by intros s r' s' [= <- <-]. Qed.

Lemma binds_assign N name v : name ∈ N → binds N (assign name v).
Proof.
  intros Hin s r s' [= <- <-] n Hn. apply lookup_insert_ne. by intros ->.
Qed.

Lemma binds_addFilter N f : binds N (addFilter f).
Proof. by intros s r s' [= <- <-]. Qed.

Lemma binds_setattr N target attr v : binds N (setattr target attr v).
Proof. by intros s r s' [= <- <-]. Qed.

Lemma binds_bind {A B} N (m : M A) (k : A → M B) :
  binds N m → (∀ a, binds N (k a)) → binds N (m ≫= k).
Proof.
  intros Hm Hk s r s'. unfold mbind, M_bind.
  destruct (m s) as [[e|a] s1] eqn:E.
  - intros [= <- <-]. eauto.
  - intros Hs n Hn. rewrite (Hk _ _ _ _ Hs n Hn). eauto.
Qed.

Lemma binds_seq {A} N (m : M unit) (k : M A) :
  binds N m → binds N k → binds N (m;; k).
Proof. intros Hm Hk. apply binds_bind; [done | by intros _]. Qed.

Lemma binds_if {A} N (b : bool) (m k : M A) :
  binds N m → binds N k → binds N (if b then m else k).
Proof. by destruct b. Qed.

Lemma binds_getattr N env target attr : binds N (getattr env target attr).
Proof.
  unfold getattr. destruct (has_attr env target attr);
    [apply binds_ret | apply binds_lift].
Qed.

Lemma getattr_inr env target attr s v s' :
  getattr env target attr s = (inr v, s') →
  v = VNative target attr ∧ s' = s.
Proof.
  unfold getattr. destruct (has_attr env target attr); [|done].
  by intros [= <- <-].
Qed.

Lemma binds_load_module N env m : binds N (load_module env m).
Proof.
  unfold load_module. destruct (import_error env m);
    [apply binds_lift | apply binds_ret].
Qed.

Lemma binds_import_as N env m name :
  name ∈ N → binds N (import_as env m name).
Proof.
  intros Hn. apply binds_seq; [apply binds_load_module | by apply binds_assign].
Qed.

Lemma binds_import_names N env m names :
  names ⊆ N → binds N (import_names env m names).
Proof.
  induction names as [|a names IH]; intros Hsub; simpl; [apply binds_ret |].
  apply binds_seq.
  - apply binds_if; [apply binds_assign | apply binds_lift]. set_solver.
  - apply IH. set_solver.
Qed.

Lemma binds_from_import N env m names :
  names ⊆ N → binds N (from_import env m names).
Proof.
  intros Hsub. apply binds_seq;
    [apply binds_load_module | by apply binds_import_names].
Qed.

Lemma binds_try_except_ImportError N body handler :
  binds N body → binds N handler →
  binds N (try_except_ImportError body handler).
Proof.
  intros Hb Hh s r s'. unfold try_except_ImportError.
  destruct (body s) as [[e|a] s1] eqn:E.
  - destruct (is_ImportError e).
    + intros Hs n Hn. rewrite (Hh _ _ _ Hs n Hn). eauto.
    + intros [= <- <-]. eauto.
  - intros [= <- <-]. eauto.
Qed.

(** *** Which statements leave other modules alone *)

Lemma quiet_ret {A} (a : A) : quiet (mret a).
Proof. by intros s r s' [= <- <-]. Qed.

Lemma quiet_lift {A} (r : result A) : quiet (lift r).
Proof. by intros s r' s' [= <- <-]. Qed.

Lemma quiet_assign name v : quiet (assign name v).
Proof. by intros s r s' [= <- <-]. Qed.

Lemma quiet_addFilter f : quiet (addFilter f).
Proof. by intros s r s' [= <- <-]. Qed.

Lemma quiet_getattr env target attr : quiet (getattr env target attr).
Proof.
  unfold getattr. destruct (has_attr env target attr);
    [apply quiet_ret | apply quiet_lift].
Qed.

Lemma quiet_bind {A B} (m : M A) (k : A → M B) :
  quiet m → (∀ a, quiet (k a)) → quiet (m ≫= k).
Proof.
  intros Hm Hk s r s'. unfold mbind, M_bind.
  destruct (m s) as [[e|a] s1] eqn:E.
  - intros [= <- <-]. eauto.
  - intros Hs. rewrite (Hk _ _ _ _ Hs). eauto.
Qed.

Lemma quiet_seq {A} (m : M unit) (k : M A) :
  quiet m → quiet k → quiet (m;; k).
Proof. intros Hm Hk. apply quiet_bind; [done | by intros _]. Qed.

Lemma quiet_load_module env m : quiet (load_module env m).
Proof.
  unfold load_module. destruct (import_error env m);
    [apply quiet_lift | apply quiet_ret].
Qed.

Lemma quiet_import_as env m name : quiet (import_as env m name).
Proof. apply quiet_seq; [apply quiet_load_module | apply quiet_assign]. Qed.

Lemma quiet_import_names env m names : quiet (import_names env m names).
Proof.
  induction names as [|a names IH]; simpl; [apply quiet_ret |].
  apply quiet_seq; [|done].
  destruct (has_attr env m a); [apply quiet_assign | apply quiet_lift].
Qed.

Lemma quiet_from_import env m names : quiet (from_import env m names).
Proof.
  apply quiet_seq; [apply quiet_load_module | apply quiet_import_names].
Qed.

Lemma quiet_try_except_ImportError body handler :
  quiet body → quiet handler → quiet (try_except_ImportError body handler).
Proof.
  intros Hb Hh s r s'. unfold try_except_ImportError.
  destruct (body s) as [[e|a] s1] eqn:E.
  - destruct (is_ImportError e).
    + intros Hs. rewrite (Hh _ _ _ Hs). eauto.
    + intros [= <- <-]. eauto.
  - intros [= <- <-]. eauto.
Qed.

End MonadFacts.

Section ResolverFacts.
Import Py Marker Versions Resolver.
Context `{Packaging}.
Variable env : environment.

Lemma assign_inr name v s s' :
  assign name v s = (inr tt, s') → s' = set_global name v s.
Proof. by intros [= <-]. Qed.

Lemma setattr_inr target attr v s s' :
  setattr target attr v s = (inr tt, s') → s' = add_patch target attr v s.
Proof. by intros [= <-]. Qed.

Lemma globals_add_patch target attr v s :
  globals (add_patch target attr v s) = globals s.
Proof. reflexivity. Qed.

Lemma from_import_fails m names s :
  import_fails env m names = true →
  ∃ e s1, from_import env m names s = (inl e, s1)
          ∧ is_ImportError e = true.
Proof.
  unfold import_fails, from_import, load_module.
  destruct (import_error env m) as [e|].
  - intros He. by exists e, s.
  - change ((mret tt;; import_names env m names) s)
      with (import_names env m names s).
    revert s; induction names as [|a names IH]; intros s; simpl; [done |].
    destruct (has_attr env m a) eqn:Ha; simpl.
    + intros Hn. erewrite seq_run by reflexivity. by apply IH.
    + intros _. by eexists _, s.
Qed.

Lemma from_import_inl m names s e s1 :
  from_import env m names s = (inl e, s1) →
  is_ImportError e = true →
  import_fails env m names = true.
Proof.
  unfold import_fails, from_import, load_module.
  destruct (import_error env m) as [e'|].
  - by intros [= -> _].
  - change ((mret tt;; import_names env m names) s)
      with (import_names env m names s).
    intros Hs _. revert s Hs.
    induction names as [|a names IH]; intros s; simpl; [done |].
    destruct (has_attr env m a) eqn:Ha; simpl; [|done].
    erewrite seq_run by reflexivity. apply IH.
Qed.

Lemma from_import_succeeds m names :
  import_error env m = None →
  Forall (λ a, has_attr env m a = true) names →
  import_fails env m names = false.
Proof.
  intros Hm Hn. unfold import_fails. rewrite Hm.
  apply negb_false_iff, forallb_forall. intros a Ha.
  by apply (proj1 (List.Forall_forall _ _) Hn).
Qed.

Ltac not_in_names :=
  let Hn := fresh in
  intros Hn;
  repeat (apply elem_of_cons in Hn as [Hn | Hn]; [discriminate Hn |]);
  by apply elem_of_nil in Hn.

Ltac in_names :=
  repeat (apply Forall_cons; split;
          [repeat first [apply list_elem_of_here
                        | apply list_elem_of_further] |]);
  apply Forall_nil_2.

Ltac lookup_global :=
  unfold imported; cbn [foldl fst snd];
  repeat first
    [ apply lookup_set_global_eq
    | rewrite lookup_set_global_ne by reflexivity
    | rewrite globals_add_patch ].

Ltac bound_globals :=
  unfold bound; repeat (apply Forall_cons; split; [lookup_global |]);
  apply Forall_nil_2.

(** Inversion of a successful run of a sequence of statements. *)
Ltac run_prim H :=
  lazymatch type of H with
  | assign _ _ _ = _ => apply assign_inr in H as ->
  | setattr _ _ _ _ = _ => apply setattr_inr in H as ->
  | from_import _ _ _ _ = _ => apply from_import_inr in H as (-> & ? & ?)
  | _ => idtac
  end.

Ltac run_seq H :=
  repeat lazymatch type of H with
    | seq _ _ _ = _ =>
        let H1 := fresh "Hrun" in
        apply seq_inr in H as (? & H1 & H); run_prim H1
    | mbind _ (getattr _ _ _) _ = _ =>
        let H1 := fresh "Hrun" in
        apply bind_inr in H as (? & ? & H1 & H);
        apply getattr_inr in H1 as [-> ->]
    end;
  run_prim H.

(** *** The [keras_spiking] block *)

Lemma binds_import_keras_spiking :
  binds keras_spiking_names (import_keras_spiking env).
Proof.
  apply binds_try_except_ImportError.
  - by apply binds_from_import.
  - repeat apply binds_seq; apply binds_assign; set_solver.
Qed.

Lemma import_keras_spiking_inr s s' :
  import_keras_spiking env s = (inr tt, s') →
  (import_fails env "keras_spiking" keras_spiking_names = false
   ∧ bound s' keras_spiking_native_bindings)
  ∨ (import_fails env "keras_spiking" keras_spiking_names = true
     ∧ bound s' keras_spiking_marker_bindings).
Proof.
  intros Hs. apply try_except_ImportError_inr in Hs as [Hs | Hs].
  - left. apply from_import_inr in Hs as (-> & Hm & Hn).
    split; [by apply from_import_succeeds | bound_globals].
  - right. destruct Hs as (e & s1 & Hb & He & Hh).
    split; [by eapply from_import_inl |].
    run_seq Hh. bound_globals.
Qed.

Lemma import_keras_spiking_inl s e s1 :
  import_keras_spiking env s = (inl e, s1) → is_ImportError e = false.
Proof.
  unfold import_keras_spiking, try_except_ImportError.
  destruct (from_import _ _ _ _) as [[e'|[]] s2]; [|done].
  destruct (is_ImportError e') eqn:He; [done | by intros [= <- _]].
Qed.

(** *** The [ConvolutionTranspose] block *)

Lemma binds_import_ConvolutionTranspose :
  binds transpose_names (import_ConvolutionTranspose env).
Proof.
  apply binds_try_except_ImportError.
  - apply binds_seq; apply binds_from_import; set_solver.
  - repeat apply binds_seq; apply binds_assign; set_solver.
Qed.

Lemma import_ConvolutionTranspose_inr s s' :
  import_ConvolutionTranspose env s = (inr tt, s') →
  (transpose_import_fails env = false
   ∧ bound s' transpose_native_bindings)
  ∨ (transpose_import_fails env = true
     ∧ bound s' transpose_marker_bindings).
Proof.
  intros Hs. apply try_except_ImportError_inr in Hs as [Hs | Hs].
  - left. run_seq Hs. split; [|bound_globals].
    unfold transpose_import_fails.
    by rewrite !from_import_succeeds.
  - right. destruct Hs as (e & s1 & Hb & He & Hh).
    run_seq Hh. split; [|bound_globals].
    unfold transpose_import_fails.
    unfold seq, mbind, M_bind in Hb.
    destruct (from_import env "nengo.transforms" _ s)
      as [[e1|[]] s2] eqn:E1.
    + injection Hb as -> ->.
      by rewrite (from_import_inl _ _ _ _ _ E1 He).
    + rewrite (from_import_inl _ _ _ _ _ Hb He). apply orb_true_r.
Qed.

Lemma import_ConvolutionTranspose_inl s e s1 :
  import_ConvolutionTranspose env s = (inl e, s1) →
  is_ImportError e = false.
Proof.
  unfold import_ConvolutionTranspose, try_except_ImportError.
  destruct ((_;; _) s) as [[e'|[]] s2]; [|done].
  destruct (is_ImportError e') eqn:He; [done | by intros [= <- _]].
Qed.

(** *** The nengo block *)

Lemma binds_weaken {A} N N' (m : M A) : N ⊆ N' → binds N m → binds N' m.
Proof. intros Hsub Hm s r s' Hs n Hn. apply (Hm _ _ _ Hs). set_solver. Qed.

Lemma binds_nengo_compat : binds nengo_names (nengo_compat env).
Proof.
  unfold nengo_compat.
  apply binds_bind; [apply binds_getattr |]. intros aslinearoperator.
  repeat first
    [ apply binds_setattr | apply binds_assign; set_solver
    | apply binds_seq ].
  apply binds_bind; [apply binds_lift |]. intros legacy.
  apply binds_if.
  - repeat first [ apply binds_assign; set_solver | apply binds_seq ].
  - repeat first
      [ apply binds_assign; set_solver
      | apply binds_from_import; set_solver
      | apply binds_seq ].
    eapply binds_weaken; [|apply binds_import_ConvolutionTranspose].
    set_solver.
Qed.

Lemma nengo_compat_inr s s' :
  nengo_compat env s = (inr tt, s') →
  ∃ v t,
    parse (nengo_version env) = Some v ∧ parse "3.1.0.dev0" = Some t
    ∧ if version_lt v t
      then bound s' nengo_legacy_bindings
      else bound s' nengo_native_bindings
           ∧ ((transpose_import_fails env = false
               ∧ bound s' transpose_native_bindings)
              ∨ (transpose_import_fails env = true
                 ∧ bound s' transpose_marker_bindings)).
Proof.
  unfold nengo_compat. intros Hs.
  apply bind_inr in Hs as (? & ? & [-> ->]%getattr_inr & Hs).
  do 3 (apply seq_inr in Hs as (? & Hrun & Hs); run_prim Hrun).
  apply bind_inr in Hs as (legacy & s1 & Hb & Hs).
  apply lift_inr in Hb as [Hb ->].
  apply below_inr in Hb as (v & t & Hv & Ht & ->).
  exists v, t. split; [done |]. split; [done |].
  destruct (version_lt v t).
  - run_seq Hs. bound_globals.
  - do 2 (apply seq_inr in Hs as (? & Hrun & Hs); run_prim Hrun).
    apply seq_inr in Hs as (s2 & Htry & Hs).
    run_seq Hs.
    pose proof (binds_import_ConvolutionTranspose _ _ _ Htry) as Hframe.
    apply import_ConvolutionTranspose_inr in Htry.
    split.
    + unfold bound.
      repeat (apply Forall_cons; split;
              [lookup_global;
               try (rewrite Hframe by not_in_names; lookup_global) |]).
      apply Forall_nil_2.
    + destruct Htry as [[Hf Hb] | [Hf Hb]]; [left | right];
        (split; [done |]);
        unfold bound in *;
        apply Forall_cons in Hb as [Hb1 Hb]; apply Forall_cons in Hb as [Hb2 _];
        cbn [fst snd] in Hb1, Hb2;
        repeat (apply Forall_cons; split; [lookup_global; done |]);
        apply Forall_nil_2.
Qed.

(** *** The TensorFlow block *)

Lemma tensorflow_compat_inr s s' :
  tensorflow_compat env s = (inr tt, s') →
  ∃ v t,
    parse (tf_version env) = Some v ∧ parse "2.3.0rc0" = Some t
    ∧ globals s' !! "_build_map"
      = Some (if version_lt v t then VFunc F_build_map
              else VNative "tensorflow.python.keras.engine.functional"
                     "_build_map").
Proof.
  unfold tensorflow_compat. intros Hs.
  apply bind_inr in Hs as (legacy & s1 & Hb & Hs).
  apply lift_inr in Hb as [Hb ->].
  apply below_inr in Hb as (v & t & Hv & Ht & ->).
  exists v, t. split; [done |]. split; [done |].
  apply seq_inr in Hs as (s1 & H1 & Hs).
  apply bind_inr in Hs as (legacy & s2 & Hb & Hs).
  apply lift_inr in Hb as [Hb ->].
  apply below_inr in Hb as (v' & t' & Hv' & Ht' & ->).
  assert (v' = v) as -> by congruence.
  assert (t' = t) as -> by congruence.
  destruct (version_lt v t).
  - run_seq H1. run_seq Hs. lookup_global.
  - run_seq H1. injection Hs as <-. lookup_global.
Qed.

(** *** The whole module *)

Lemma bound_lookup s l name v :
  bound s l → (name, v) ∈ l → globals s !! name = Some v.
Proof. intros Hb Hin. by apply (proj1 (Forall_forall _ _) Hb _ Hin). Qed.

Lemma bound_transfer s s' l :
  (∀ nv, nv ∈ l → globals s' !! nv.1 = globals s !! nv.1) →
  bound s l → bound s' l.
Proof.
  intros Hf Hb. apply Forall_forall. intros nv Hnv.
  rewrite (Hf _ Hnv). by apply (proj1 (Forall_forall _ _) Hb).
Qed.

(** *** The assignments on other modules *)

Ltac quiet_steps :=
  repeat first
    [ apply quiet_assign | apply quiet_from_import | apply quiet_import_as
    | apply quiet_addFilter | apply quiet_seq ].

Lemma quiet_imports : quiet (imports env).
Proof. unfold imports. quiet_steps. Qed.

Lemma quiet_definitions : quiet (definitions).
Proof. unfold definitions. quiet_steps. Qed.

Lemma quiet_import_keras_spiking : quiet (import_keras_spiking env).
Proof. apply quiet_try_except_ImportError; quiet_steps. Qed.

Lemma quiet_import_ConvolutionTranspose :
  quiet (import_ConvolutionTranspose env).
Proof. apply quiet_try_except_ImportError; quiet_steps. Qed.

Lemma tensorflow_compat_patches s s' v t :
  parse (tf_version env) = Some v → parse "2.3.0rc0" = Some t →
  tensorflow_compat env s = (inr tt, s') →
  patches s' = patches s ++ if version_lt v t then [conform_patch] else [].
Proof.
  unfold tensorflow_compat. intros Hv Ht Hs.
  apply bind_inr in Hs as (legacy & s1 & Hb & Hs).
  apply lift_inr in Hb as [Hb ->].
  apply below_inr in Hb as (v' & t' & Hv' & Ht' & ->).
  assert (v' = v) as -> by congruence.
  assert (t' = t) as -> by congruence.
  apply seq_inr in Hs as (s1 & H1 & Hs).
  apply bind_inr in Hs as (legacy & s2 & Hb & Hs).
  apply lift_inr in Hb as [Hb ->].
  apply below_inr in Hb as (v' & t' & Hv'' & Ht'' & ->).
  assert (v' = v) as -> by congruence.
  assert (t' = t) as -> by congruence.
  destruct (version_lt v t).
  - run_seq H1. run_seq Hs. reflexivity.
  - run_seq H1. injection Hs as <-. by rewrite app_nil_r.
Qed.

Lemma nengo_compat_patches s s' :
  nengo_compat env s = (inr tt, s') →
  patches s' = patches s ++ [linalg_patch].
Proof.
  unfold nengo_compat. intros Hs.
  apply bind_inr in Hs as (? & ? & [-> ->]%getattr_inr & Hs).
  do 3 (apply seq_inr in Hs as (? & Hrun & Hs); run_prim Hrun).
  apply bind_inr in Hs as (legacy & s1 & Hb & Hs).
  apply lift_inr in Hb as [_ ->].
  destruct legacy.
  - run_seq Hs. reflexivity.
  - do 2 (apply seq_inr in Hs as (? & Hrun & Hs); run_prim Hrun).
    apply seq_inr in Hs as (s2 & Htry & Hs).
    run_seq Hs. apply quiet_import_ConvolutionTranspose in Htry.
    cbn [patches set_global]. by rewrite Htry.
Qed.

Lemma load_patches s v t :
  parse (tf_version env) = Some v → parse "2.3.0rc0" = Some t →
  load env = (inr tt, s) →
  patches s
  = (if version_lt v t then [conform_patch] else []) ++ [linalg_patch].
Proof.
  unfold load, compat. intros Hv Ht Hs.
  apply seq_inr in Hs as (s1 & H1%quiet_imports & Hs).
  apply seq_inr in Hs as (s2 & H2%quiet_definitions & Hs).
  apply seq_inr in Hs as (s3 & Htf & Hs).
  apply seq_inr in Hs as (s4 & Hnengo & Hs).
  apply seq_inr in Hs as (s5 & ->%assign_inr & Hs).
  apply quiet_import_keras_spiking in Hs. rewrite Hs. cbn [patches set_global].
  rewrite (nengo_compat_patches _ _ Hnengo).
  rewrite (tensorflow_compat_patches _ _ v t Hv Ht Htf).
  by rewrite H2, H1.
Qed.

(** What a successful load has gone through, block by block. *)
Lemma load_inr s :
  load env = (inr tt, s) →
  ∃ s_tf s_nengo,
    tensorflow_compat env s_tf.1 = (inr tt, s_tf.2)
    ∧ nengo_compat env s_nengo.1 = (inr tt, s_nengo.2)
    ∧ s_nengo.1 = s_tf.2
    ∧ import_keras_spiking env
        (set_global "eager_enabled" (VFunc F_eager_enabled) s_nengo.2)
      = (inr tt, s).
Proof.
  unfold load, compat. intros Hs.
  apply seq_inr in Hs as (s1 & _ & Hs).
  apply seq_inr in Hs as (s2 & _ & Hs).
  apply seq_inr in Hs as (s3 & Htf & Hs).
  apply seq_inr in Hs as (s4 & Hnengo & Hs).
  apply seq_inr in Hs as (s5 & ->%assign_inr & Hs).
  by exists (s2, s3), (s3, s4).
Qed.

Lemma after_nengo_frame s4 r s name :
  import_keras_spiking env
    (set_global "eager_enabled" (VFunc F_eager_enabled) s4) = (r, s) →
  name ∉ "eager_enabled" :: keras_spiking_names →
  globals s !! name = globals s4 !! name.
Proof.
  intros Hk Hn. rewrite (binds_import_keras_spiking _ _ _ Hk) by set_solver.
  apply lookup_insert_ne. set_solver.
Qed.

Lemma load_nengo_path s v t :
  parse (nengo_version env) = Some v → parse "3.1.0.dev0" = Some t →
  load env = (inr tt, s) →
  nengo_path s = Some (if version_lt v t then Legacy else Native).
Proof.
  intros Hv Ht Hs.
  apply load_inr in Hs as ([s2 s3] & [s3' s4] & _ & Hn & _ & Hk).
  simpl in *. unfold nengo_path.
  rewrite (after_nengo_frame _ _ _ _ Hk) by not_in_names.
  apply nengo_compat_inr in Hn as (v' & t' & Hv' & Ht' & Hn).
  assert (v' = v) as -> by congruence.
  assert (t' = t) as -> by congruence.
  destruct (version_lt v t).
  - by rewrite (bound_lookup _ _ "conn_has_weights"
                  (VFunc F_conn_has_weights_legacy) Hn)
      by (unfold nengo_legacy_bindings; set_solver).
  - destruct Hn as [Hn _].
    by rewrite (bound_lookup _ _ "conn_has_weights"
                  (VFunc F_conn_has_weights) Hn)
      by (unfold nengo_native_bindings; set_solver).
Qed.

Lemma load_tensorflow_path s v t :
  parse (tf_version env) = Some v → parse "2.3.0rc0" = Some t →
  load env = (inr tt, s) →
  tensorflow_path s = Some (if version_lt v t then Legacy else Native).
Proof.
  intros Hv Ht Hs.
  apply load_inr in Hs as ([s2 s3] & [s3' s4] & Htf & Hn & Heq & Hk).
  simpl in *. subst s3'. unfold tensorflow_path.
  rewrite (after_nengo_frame _ _ _ _ Hk) by not_in_names.
  rewrite (binds_nengo_compat _ _ _ Hn) by not_in_names.
  apply tensorflow_compat_inr in Htf as (v' & t' & Hv' & Ht' & ->).
  assert (v' = v) as -> by congruence.
  assert (t' = t) as -> by congruence.
  by destruct (version_lt v t).
Qed.

Lemma load_parses s :
  load env = (inr tt, s) →
  ∃ tf tf_threshold ng ng_threshold,
    parse (tf_version env) = Some tf
    ∧ parse "2.3.0rc0" = Some tf_threshold
    ∧ parse (nengo_version env) = Some ng
    ∧ parse "3.1.0.dev0" = Some ng_threshold.
Proof.
  intros Hs.
  apply load_inr in Hs as ([s2 s3] & [s3' s4] & Htf & Hn & _).
  apply tensorflow_compat_inr in Htf as (v & t & Hv & Ht & _).
  apply nengo_compat_inr in Hn as (v' & t' & Hv' & Ht' & _).
  by exists v, t, v', t'.
Qed.

(** C3: on a successful load the TensorFlow block has taken the legacy
    path exactly when the parsed [tf.__version__] is below the parsed
    "2.3.0rc0", and the native path otherwise; the nengo block has taken
    the legacy path exactly when the parsed [nengo.__version__] is
    below the parsed "3.1.0.dev0", and the native path otherwise.  A
    version that parses to the threshold takes the native path, as no
    version is below itself.  The patch of line 189 is applied exactly
    on the legacy TensorFlow path. *)
Theorem version_gate :
  (∀ v : Version, version_lt v v = false) →
  ∀ s, load env = (inr tt, s) →
  ∃ tf tf_threshold ng ng_threshold,
    parse (tf_version env) = Some tf
    ∧ parse "2.3.0rc0" = Some tf_threshold
    ∧ parse (nengo_version env) = Some ng
    ∧ parse "3.1.0.dev0" = Some ng_threshold
    ∧ (tensorflow_path s = Some Legacy
       ↔ version_lt tf tf_threshold = true)
    ∧ (tensorflow_path s = Some Native
       ↔ version_lt tf tf_threshold = false)
    ∧ (nengo_path s = Some Legacy ↔ version_lt ng ng_threshold = true)
    ∧ (nengo_path s = Some Native ↔ version_lt ng ng_threshold = false)
    ∧ (tf = tf_threshold → tensorflow_path s = Some Native)
    ∧ (ng = ng_threshold → nengo_path s = Some Native)
    ∧ (conform_patch ∈ patches s ↔ version_lt tf tf_threshold = true).
Proof.
  intros Hirr s Hs.
  destruct (load_parses s Hs) as (tf & tft & ng & ngt & H1 & H2 & H3 & H4).
  exists tf, tft, ng, ngt. repeat (split; [done |]).
  rewrite (load_patches s tf tft H1 H2 Hs).
  rewrite (load_tensorflow_path s tf tft H1 H2 Hs).
  rewrite (load_nengo_path s ng ngt H3 H4 Hs).
  repeat split.
  all: try (intros ->; by rewrite Hirr).
  all: try (by destruct (version_lt _ _)).
  - destruct (version_lt tf tft); [done |].
    intros [Hin | Hin%elem_of_nil]%elem_of_cons; [done | done].
  - intros ->. apply list_elem_of_here.
Qed.

Lemma bound_binding s l name v :
  bound s l → binding name l = Some v → globals s !! name = Some v.
Proof.
  unfold bound. induction 1 as [|[n w] l Hn _ IH]; simpl; [done |].
  destruct (String.eqb n name) eqn:E; [|done].
  apply String.eqb_eq in E as ->. by intros [= <-].
Qed.

(** The capabilities after a successful load: the bindings of the nengo
    block on the path taken, and those of the [keras_spiking] block. *)
Lemma load_bindings s :
  load env = (inr tt, s) →
  ∃ l_nengo l_keras,
    bound s (l_nengo ++ l_keras)
    ∧ (l_nengo = nengo_legacy_bindings ∧ nengo_path s = Some Legacy
       ∨ l_nengo = nengo_native_bindings ++ transpose_native_bindings
         ∧ nengo_path s = Some Native
         ∧ transpose_import_fails env = false
       ∨ l_nengo = nengo_native_bindings ++ transpose_marker_bindings
         ∧ nengo_path s = Some Native
         ∧ transpose_import_fails env = true)
    ∧ (l_keras = keras_spiking_native_bindings
       ∧ import_fails env "keras_spiking" keras_spiking_names = false
       ∨ l_keras = keras_spiking_marker_bindings
         ∧ import_fails env "keras_spiking" keras_spiking_names = true).
Proof.
  intros Hs.
  destruct (load_parses s Hs) as (_ & _ & ng & ngt & _ & _ & H3 & H4).
  pose proof (load_nengo_path s ng ngt H3 H4 Hs) as Hpath.
  apply load_inr in Hs as ([s2 s3] & [s3' s4] & _ & Hn & _ & Hk).
  simpl in *.
  assert (Hframe : ∀ l, bound s4 l →
                        Forall (λ nv, nv.1 ∈ nengo_names) l → bound s l).
  { intros l Hb Hl. apply (bound_transfer s4); [|done].
    intros nv Hnv. apply (after_nengo_frame _ _ _ _ Hk).
    assert (nv.1 ∈ nengo_names) as Hin
        by (by apply (proj1 (Forall_forall _ _) Hl)).
    intros Hbad. revert Hin. unfold nengo_names.
    repeat (apply elem_of_cons in Hbad as [-> | Hbad]; [not_in_names |]).
    by apply elem_of_nil in Hbad. }
  apply nengo_compat_inr in Hn as (v' & t' & Hv' & Ht' & Hn).
  assert (v' = ng) as -> by congruence.
  assert (t' = ngt) as -> by congruence.
  apply import_keras_spiking_inr in Hk.
  assert (∃ l_keras, bound s l_keras
            ∧ (l_keras = keras_spiking_native_bindings
               ∧ import_fails env "keras_spiking" keras_spiking_names
                 = false
               ∨ l_keras = keras_spiking_marker_bindings
                 ∧ import_fails env "keras_spiking" keras_spiking_names
                   = true)) as (l_keras & Hbk & Hlk).
  { destruct Hk as [[? ?] | [? ?]]; eexists; (split; [eassumption |]);
      [by left | by right]. }
  destruct (version_lt ng ngt).
  - exists nengo_legacy_bindings, l_keras. split; [|split; [by left | done]].
    apply Forall_app. split; [|done]. apply Hframe; [done | in_names].
  - destruct Hn as [Hn [[Hf Ht] | [Hf Ht]]].
    + exists (nengo_native_bindings ++ transpose_native_bindings), l_keras.
      split; [|split; [right; by left | done]].
      rewrite <- app_assoc. unfold bound. rewrite !Forall_app.
      split; [|split]; [apply Hframe; [done | in_names] .. | done].
    + exists (nengo_native_bindings ++ transpose_marker_bindings), l_keras.
      split; [|split; [right; by right | done]].
      rewrite <- app_assoc. unfold bound. rewrite !Forall_app.
      split; [|split]; [apply Hframe; [done | in_names] .. | done].
Qed.


End ResolverFacts.

(** ** The reference version instance *)

Section PEP440Facts.
Import PEP440.

Lemma compare_release_refl (r : list N) : compare_release r r = Eq.
Proof.
  induction r as [|a r IH]; simpl; [done |].
  by rewrite N.compare_refl.
Qed.

Lemma compare_ext_refl {A} (cmp : A → A → comparison) (x : ext A) :
  (∀ a, cmp a a = Eq) → compare_ext cmp x x = Eq.
Proof. intros Hc. destruct x; simpl; auto. Qed.

Lemma compare_pre_refl (p : pre_tag * N) : compare_pre p p = Eq.
Proof. unfold compare_pre. by rewrite !N.compare_refl. Qed.

Lemma compare_refl (v : version) : compare v v = Eq.
Proof.
  unfold compare.
  rewrite N.compare_refl, compare_release_refl.
  rewrite (compare_ext_refl compare_pre) by apply compare_pre_refl.
  by rewrite !(compare_ext_refl N.compare) by apply N.compare_refl.
Qed.

Lemma lt_irrefl (v : version) : lt v v = false.
Proof. unfold lt. by rewrite compare_refl. Qed.

End PEP440Facts.

(** ** Capability resolution on concrete installations *)

Section Installations.
Import Py Marker Versions Resolver.

Notation path_of := (paths (H := PEP440.packaging)).

Example below_both_thresholds :
  path_of "2.2.0" "3.0.0" = (Some Legacy, Some Legacy).
Proof. vm_compute. reflexivity. Qed.

Example just_below_both_thresholds :
  path_of "2.3.0.dev0" "3.0.9" = (Some Legacy, Some Legacy)
  ∧ path_of "2.3.0b1" "3.1.0.dev0.dev1" = (Some Legacy, None)
  ∧ path_of "2.3.0-dev20200701" "3.0.9.post1" = (Some Legacy, Some Legacy).
Proof. split; [|split]; vm_compute; reflexivity. Qed.

Example at_both_thresholds :
  path_of "2.3.0rc0" "3.1.0.dev0" = (Some Native, Some Native)
  ∧ path_of "2.3.0-rc0" "3.1.dev0" = (Some Native, Some Native).
Proof. split; vm_compute; reflexivity. Qed.

Example above_both_thresholds :
  path_of "2.3.0" "3.1.0" = (Some Native, Some Native)
  ∧ path_of "2.3.0rc1" "3.1.0.dev1" = (Some Native, Some Native).
Proof. split; vm_compute; reflexivity. Qed.

(** An error of the [keras_spiking] import that is not an [ImportError]
    is not caught. *)
Example other_error_propagates :
  (load (H := PEP440.packaging) (broken_installation "2.3.0" "3.1.0")).1
  = inl (Exn RuntimeError "keras_spiking cannot be initialised").
Proof. vm_compute. reflexivity. Qed.

(** Without [keras_spiking] the three names are markers, and calling one
    raises. *)
Example missing_keras_spiking :
  let s := (load (H := PEP440.packaging)
              (bare_installation "2.3.0" "3.1.0")).2 in
  globals s !! "Lowpass"
  = Some (VClass (make_dummy_type "keras_spiking_Lowpass"))
  ∧ instantiate (make_dummy_type "keras_spiking_Lowpass") [VInt 1] []
    = raise (Exn RuntimeError "cannot instantiate").
Proof. split; vm_compute; reflexivity. Qed.

End Installations.

Lemma version_gate_witness :
  let env := Resolver.installation "2.3.0rc0" "3.1.0.dev0" in
  let s := (Resolver.load (H := PEP440.packaging) env).2 in
  Resolver.load (H := PEP440.packaging) env = (inr tt, s)
  ∧ Resolver.tensorflow_path s = Some Resolver.Native
  ∧ Resolver.nengo_path s = Some Resolver.Native.
Proof.
  intros env s.
  assert (Hs : Resolver.load (H := PEP440.packaging) env = (inr tt, s))
    by (vm_compute; reflexivity).
  split; [exact Hs |].
  destruct (version_gate (H := PEP440.packaging) env lt_irrefl s Hs)
    as (tf & tft & ng & ngt & H1 & H2 & H3 & H4 & _ & _ & _ & _ & Htf & Hng
        & _).
  cbv [env Resolver.installation Resolver.tf_version Resolver.nengo_version]
    in H1, H3.
  split; [apply Htf | apply Hng]; congruence.
Defined.



(** ** The graph traversal *)

Section BuildMapFacts.
Import Py BuildMap.
Variable g : Graph.

(** *** Loops *)

Lemma for_each_done {A S} (f : A → S → outcome S)
    (I : list A → S → Prop) (ts : list A) :
  (∀ pre a s s', a ∈ ts → I pre s → f a s = Done s' → I (pre ++ [a]) s') →
  ∀ pre st st',
    I pre st → for_each f ts st = Done st' → I (pre ++ ts) st'.
Proof.
  induction ts as [|a ts IH]; intros Hf pre st st' HI Hrun; simpl in Hrun.
  - injection Hrun as <-. by rewrite app_nil_r.
  - destruct (f a st) as [s| |] eqn:Ha; try done.
    rewrite (cons_middle a pre ts), app_assoc.
    apply (IH (λ pre a' s s' Hin, Hf pre a' s s' (list_elem_of_further _ _ _ Hin))
             (pre ++ [a]) s st'); [|done].
    apply (Hf pre a st s); [apply list_elem_of_here | done | done].
Qed.

Lemma for_each_stops {A S} (f : A → S → outcome S) (ts : list A) st :
  (∀ st', for_each f ts st ≠ Done st') →
  ∃ pre a s, a ∈ ts ∧ pre `prefix_of` ts
             ∧ for_each f pre st = Done s
             ∧ for_each f ts st = match f a s with
                                  | Done _ => OutOfFuel
                                  | r => r
                                  end
             ∧ (∀ s', f a s ≠ Done s').
Proof.
  revert st; induction ts as [|a ts IH]; intros st Hnot; simpl in *.
  - by destruct (Hnot st).
  - destruct (f a st) as [s| |] eqn:Ha.
    + destruct (IH s Hnot) as (pre & b & s' & Hb & Hpre & Hrun & Heq & Hb').
      exists (a :: pre), b, s'. simpl. rewrite Ha.
      split; [by apply list_elem_of_further |].
      split; [by apply prefix_cons |]. done.
    + exists [], a, st. simpl. rewrite Ha.
      split; [apply list_elem_of_here |].
      split; [apply prefix_nil |]. done.
    + exists [], a, st. simpl. rewrite Ha.
      split; [apply list_elem_of_here |].
      split; [apply prefix_nil |]. done.
Qed.

(** *** Looking up the node of a tensor *)

Lemma node_of_nodes t l n nd :
  node_of g t = inr (l, n, nd) → nodes g !! n = Some nd.
Proof.
  unfold node_of.
  destruct (keras_history g !! t) as [[[l' i] j]|]; [|done].
  destruct (inbound_nodes g !! l') as [ns|]; [|done].
  destruct (index ns i) as [e|n']; simpl; [done |].
  destruct (nodes g !! n') as [nd'|] eqn:E; [|done].
  by intros [= <- <- <-].
Qed.

Lemma node_id_of_Some t n :
  node_id_of g t = Some n ↔ ∃ l nd, node_of g t = inr (l, n, nd).
Proof.
  unfold node_id_of. destruct (node_of g t) as [e|[[l n'] nd]].
  - split; [done | by intros (? & ? & ?)].
  - split; [intros [= ->]; eauto | by intros (? & ? & [= _ -> _])].
Qed.

Lemma edge_input t l n nd t' m :
  node_of g t = inr (l, n, nd) → t' ∈ inputs_of nd →
  node_id_of g t' = Some m → edge g n m.
Proof.
  intros Ht Hin Hm. unfold edge, successors.
  rewrite (node_of_nodes _ _ _ _ Ht).
  apply list_elem_of_omap. eauto.
Qed.

Lemma edge_inv n m :
  edge g n m →
  ∃ nd t', nodes g !! n = Some nd ∧ t' ∈ inputs_of nd
           ∧ node_id_of g t' = Some m.
Proof.
  unfold edge, successors. destruct (nodes g !! n) as [nd|].
  - intros (t' & ? & ?)%list_elem_of_omap. eauto.
  - by intros ?%elem_of_nil.
Qed.

Lemma well_formed_input n nd t :
  well_formed g = true → nodes g !! n = Some nd → t ∈ inputs_of nd →
  ∃ l m md, node_of g t = inr (l, m, md).
Proof.
  unfold well_formed. rewrite forallb_forall. intros Hwf Hn Ht.
  specialize (Hwf (n, nd)). simpl in Hwf.
  rewrite forallb_forall in Hwf.
  assert (returns (node_of g t) = true) as Hr.
  { apply Hwf; [|by apply list_elem_of_In].
    by apply list_elem_of_In, elem_of_map_to_list. }
  destruct (node_of g t) as [e|[[l m] md]]; [done | eauto].
Qed.

(** *** The layer indices *)

Lemma store_index_subseteq l (indices : gmap layer nat) :
  indices ⊆ store_index l indices.
Proof.
  unfold store_index. destruct (indices !! l) eqn:E; [done |].
  by apply insert_subseteq.
Qed.

Lemma store_index_lookup l (indices : gmap layer nat) :
  is_Some (store_index l indices !! l).
Proof.
  unfold store_index. destruct (indices !! l) eqn:E; [by rewrite E |].
  rewrite lookup_insert_eq. eauto.
Qed.

Lemma store_index_bound l (indices : gmap layer nat) :
  (∀ l' i, indices !! l' = Some i → i < size indices) →
  ∀ l' i, store_index l indices !! l' = Some i →
          i < size (store_index l indices).
Proof.
  intros Hb l' i. unfold store_index.
  destruct (indices !! l) eqn:E; [apply Hb |].
  rewrite map_size_insert_None by done.
  rewrite lookup_insert_Some. intros [[_ <-] | [_ Hl']]; [lia |].
  specialize (Hb _ _ Hl'). lia.
Qed.

Lemma store_index_inj l (indices : gmap layer nat) :
  (∀ l' i, indices !! l' = Some i → i < size indices) →
  (∀ l1 l2 i, indices !! l1 = Some i → indices !! l2 = Some i → l1 = l2) →
  ∀ l1 l2 i, store_index l indices !! l1 = Some i →
             store_index l indices !! l2 = Some i → l1 = l2.
Proof.
  intros Hb Hinj l1 l2 i. unfold store_index.
  destruct (indices !! l) eqn:E; [apply Hinj |].
  rewrite !lookup_insert_Some.
  intros [[<- <-] | [_ H1]] [[<- Hi] | [_ H2]]; try done.
  - specialize (Hb _ _ H2). lia.
  - specialize (Hb _ _ H1). lia.
  - by apply (Hinj _ _ i).
Qed.

(** *** The invariant *)

Lemma invariant_initial : invariant g initial.
Proof.
  split; simpl; try done.
  - apply NoDup_nil_2.
  - intros n. split; [by intros ?%elem_of_nil | set_solver].
  - intros n Hn. by apply elem_of_nil in Hn.
Qed.

Lemma invariant_enter l n st :
  invariant g st → n ∉ finished_nodes st → invariant g (enter l n st).
Proof.
  intros [] Hn. split; simpl; try done.
  - intros n' Hn'. specialize (inv_disjoint0 _ Hn'). set_solver.
  - intros n' Hn'.
    destruct (inv_layers0 _ Hn') as (t & l' & nd & Ht & Hl').
    exists t, l', nd. split; [done |].
    destruct Hl' as [i Hi]. exists i.
    by apply (lookup_weaken _ _ _ _ Hi), store_index_subseteq.
  - by apply store_index_bound.
  - by apply store_index_inj.
Qed.

Lemma invariant_leave n st st' :
  invariant g st →
  leave n st = Done st' →
  (∀ m, edge g n m → m ∈ finished_nodes st) →
  (∃ t l nd, node_of g t = inr (l, n, nd)
             ∧ is_Some (layer_indices st !! l)) →
  invariant g st'.
Proof.
  intros [] Hleave Hedge Hlayer. unfold leave in Hleave.
  destruct (decide (n ∈ nodes_in_progress st)) as [Hp|]; [|done].
  injection Hleave as <-.
  assert (n ∉ nodes_in_decreasing_depth st) as Hfresh.
  { intros Hin. apply inv_finished0 in Hin. by apply inv_disjoint0 in Hin. }
  split; simpl; try done.
  - apply NoDup_app. split; [done |]. split; [|apply NoDup_singleton].
    intros x Hx ->%list_elem_of_singleton. done.
  - intros n'. rewrite elem_of_app, list_elem_of_singleton, inv_finished0.
    set_solver.
  - intros n' Hn'. set_solver.
  - intros i x m Hi Hm.
    destruct (decide (i < length (nodes_in_decreasing_depth st))) as [Hlt|Hge].
    + rewrite lookup_app_l in Hi by done.
      destruct (inv_sorted0 _ _ _ Hi Hm) as (j & Hj & Hjm).
      exists j. split; [done |]. rewrite lookup_app_l by lia. done.
    + rewrite lookup_app_r in Hi by lia.
      destruct (i - length (nodes_in_decreasing_depth st)) as [|k] eqn:Ek;
        [|done].
      injection Hi as <-.
      apply Hedge, inv_finished0, list_elem_of_lookup in Hm as [j Hj].
      exists j. split; [apply lookup_lt_Some in Hj; lia |].
      rewrite lookup_app_l by (by eapply lookup_lt_Some). done.
  - intros n'. rewrite elem_of_app, list_elem_of_singleton.
    intros [Hn' | ->]; [by apply inv_layers0 | done].
Qed.

(** *** A call that returns *)

Lemma visited_nil st : invariant g st → visited g st st [].
Proof.
  intros Hinv. do 4 (split; [done |]). intros t Ht.
  by apply elem_of_nil in Ht.
Qed.

Lemma visited_snoc st st1 st2 ts t :
  visited g st st1 ts → visited g st1 st2 [t] → visited g st st2 (ts ++ [t]).
Proof.
  intros (Hinv1 & Hp1 & Hf1 & Hl1 & Hv1) (Hinv2 & Hp2 & Hf2 & Hl2 & Hv2).
  split; [done |]. split; [congruence |]. split; [set_solver |].
  split; [by trans (layer_indices st1) |].
  intros t'. rewrite elem_of_app. intros [Ht' | Ht'].
  - destruct (Hv1 _ Ht') as (n & Hn & Hfin). exists n. split; [done |].
    by apply Hf2.
  - by apply Hv2.
Qed.

Lemma for_each_visited fuel ts st st' :
  (∀ t st st', invariant g st →
               _build_map_helper fuel g t st = Done st' →
               visited g st st' [t]) →
  invariant g st →
  for_each (_build_map_helper fuel g) ts st = Done st' →
  visited g st st' ts.
Proof.
  intros IH Hinv Hrun.
  apply (for_each_done (_build_map_helper fuel g)
           (λ pre s, visited g st s pre) ts) with (pre := []) (st := st);
    [|by apply visited_nil | done].
  intros pre a s s' _ Hpre Ha. apply (visited_snoc _ s); [done |].
  apply IH; [apply Hpre | done].
Qed.

Lemma helper_done fuel :
  ∀ t st st',
    invariant g st →
    _build_map_helper fuel g t st = Done st' →
    visited g st st' [t].
Proof.
  induction fuel as [|fuel IH]; intros t st st' Hinv Hrun; [done |].
  simpl in Hrun.
  destruct (node_of g t) as [e|[[l n] nd]] eqn:Ht; [done |].
  assert (node_id_of g t = Some n) as Hid
      by (apply node_id_of_Some; eauto).
  destruct (decide (n ∈ finished_nodes st)) as [Hfin|Hfin].
  { injection Hrun as <-. do 4 (split; [done |]).
    intros t' ->%list_elem_of_singleton. eauto. }
  destruct (decide (n ∈ nodes_in_progress st)) as [Hprog|Hprog]; [done |].
  destruct (for_each _ _ _) as [st1| |] eqn:Hloop; try done.
  apply (for_each_visited fuel) in Hloop
      as (Hinv1 & Hp1 & Hf1 & Hl1 & Hv1);
    [|exact IH | by apply invariant_enter].
  simpl in Hp1, Hf1, Hl1.
  assert (invariant g st') as Hinv'.
  { apply (invariant_leave n st1); [done | done | |].
    - intros m (nd' & t' & Hnd' & Ht' & Hm)%edge_inv.
      rewrite (node_of_nodes _ _ _ _ Ht) in Hnd'. injection Hnd' as <-.
      destruct (Hv1 _ Ht') as (m' & Hm' & Hfin'). congruence.
    - exists t, l, nd. split; [done |].
      destruct (store_index_lookup l (layer_indices st)) as [i Hi].
      exists i. by apply (lookup_weaken _ _ _ _ Hi). }
  unfold leave in Hrun.
  destruct (decide (n ∈ nodes_in_progress st1)); [|done].
  injection Hrun as <-. split; [done |]. simpl.
  split; [set_solver |]. split; [set_solver |].
  split; [trans (store_index l (layer_indices st));
            [apply store_index_subseteq | done] |].
  intros t' ->%list_elem_of_singleton. exists n. split; [done | set_solver].
Qed.

Lemma for_each_helper_done fuel ts st st' :
  invariant g st →
  for_each (_build_map_helper fuel g) ts st = Done st' →
  visited g st st' ts.
Proof. apply for_each_visited, helper_done. Qed.

(** *** The nodes in progress *)

Lemma helper_in_progress fuel :
  ∀ t st st',
    _build_map_helper fuel g t st = Done st' →
    nodes_in_progress st' = nodes_in_progress st.
Proof.
  induction fuel as [|fuel IH]; intros t st st' Hrun; [done |].
  simpl in Hrun.
  destruct (node_of g t) as [e|[[l n] nd]] eqn:Ht; [done |].
  destruct (decide (n ∈ finished_nodes st)); [by injection Hrun as <- |].
  destruct (decide (n ∈ nodes_in_progress st)) as [|Hprog]; [done |].
  destruct (for_each _ _ _) as [st1| |] eqn:Hloop; try done.
  apply (for_each_done (_build_map_helper fuel g)
           (λ _ s, nodes_in_progress s = {[n]} ∪ nodes_in_progress st)
           (inputs_of nd) (λ pre a s s' _ Hs Ha, eq_trans (IH a s s' Ha) Hs)
           []) in Hloop; [|done].
  unfold leave in Hrun.
  destruct (decide (n ∈ nodes_in_progress st1)); [|done].
  injection Hrun as <-. simpl. set_solver.
Qed.

Lemma for_each_in_progress fuel ts st st' :
  for_each (_build_map_helper fuel g) ts st = Done st' →
  nodes_in_progress st' = nodes_in_progress st.
Proof.
  apply (for_each_done (_build_map_helper fuel g)
           (λ _ s, nodes_in_progress s = nodes_in_progress st) ts
           (λ pre a s s' _ Hs Ha,
              eq_trans (helper_in_progress fuel a s s' Ha) Hs) []).
  done.
Qed.

(** *** The listed nodes *)

Lemma helper_listed (R : node → Prop) fuel :
  (∀ n m, R n → edge g n m → R m) →
  ∀ t st st',
    _build_map_helper fuel g t st = Done st' →
    (∀ n, node_id_of g t = Some n → R n) →
    (∀ n, n ∈ nodes_in_decreasing_depth st → R n) →
    ∀ n, n ∈ nodes_in_decreasing_depth st' → R n.
Proof.
  intros Hclosed.
  induction fuel as [|fuel IH]; intros t st st' Hrun Ht HL; [done |].
  simpl in Hrun.
  destruct (node_of g t) as [e|[[l n] nd]] eqn:Hnode; [done |].
  assert (R n) as Hn by (apply Ht, node_id_of_Some; eauto).
  destruct (decide (n ∈ finished_nodes st)); [by injection Hrun as <- |].
  destruct (decide (n ∈ nodes_in_progress st)); [done |].
  destruct (for_each _ _ _) as [st1| |] eqn:Hloop; try done.
  assert (∀ m, m ∈ nodes_in_decreasing_depth st1 → R m) as HL1.
  { refine (for_each_done (_build_map_helper fuel g)
              (λ _ s, ∀ m, m ∈ nodes_in_decreasing_depth s → R m)
              (inputs_of nd) _ [] (enter l n st) st1 HL Hloop).
    intros pre a s s' Ha Hs Hrun'. apply (IH a s s' Hrun'); [|done].
    intros m Hm. apply (Hclosed n); [done |]. by eapply edge_input. }
  unfold leave in Hrun.
  destruct (decide (n ∈ nodes_in_progress st1)); [|done].
  injection Hrun as <-. simpl. intros m.
  rewrite elem_of_app, list_elem_of_singleton. intros [Hm | ->]; auto.
Qed.

Lemma for_each_helper_listed (R : node → Prop) fuel ts st st' :
  (∀ n m, R n → edge g n m → R m) →
  for_each (_build_map_helper fuel g) ts st = Done st' →
  (∀ t n, t ∈ ts → node_id_of g t = Some n → R n) →
  (∀ n, n ∈ nodes_in_decreasing_depth st → R n) →
  ∀ n, n ∈ nodes_in_decreasing_depth st' → R n.
Proof.
  intros Hclosed Hloop Hts HL.
  refine (for_each_done (_build_map_helper fuel g)
            (λ _ s, ∀ m, m ∈ nodes_in_decreasing_depth s → R m) ts
            _ [] st st' HL Hloop).
  intros pre a s s' Ha Hs Hrun.
  apply (helper_listed R fuel Hclosed a s s' Hrun); [|done].
  intros n. by apply Hts.
Qed.

(** *** Enough fuel *)

Lemma helper_fuel fuel :
  ∀ t st,
    size (dom (nodes g) ∖ nodes_in_progress st) < fuel →
    _build_map_helper fuel g t st ≠ OutOfFuel.
Proof.
  induction fuel as [|fuel IH]; intros t st Hsize; [lia |].
  simpl.
  destruct (node_of g t) as [e|[[l n] nd]] eqn:Ht; [done |].
  destruct (decide (n ∈ finished_nodes st)); [done |].
  destruct (decide (n ∈ nodes_in_progress st)) as [|Hprog]; [done |].
  destruct (for_each _ _ _) as [st1| |] eqn:Hloop; [|done |].
  { unfold leave. by destruct (decide _). }
  exfalso.
  destruct (for_each_stops (_build_map_helper fuel g) (inputs_of nd)
              (enter l n st)) as (pre & a & s & _ & _ & Hpre & Heq & Hnd).
  { intros st'. by rewrite Hloop. }
  rewrite Hloop in Heq.
  apply for_each_in_progress in Hpre. simpl in Hpre.
  apply (IH a s).
  - rewrite Hpre.
    assert (n ∈ dom (nodes g)) as Hdom
        by (apply elem_of_dom; rewrite (node_of_nodes _ _ _ _ Ht); eauto).
    assert (dom (nodes g) ∖ ({[n]} ∪ nodes_in_progress st)
            ⊂ dom (nodes g) ∖ nodes_in_progress st) as Hsub
        by set_solver.
    apply subset_size in Hsub. lia.
  - destruct (_build_map_helper fuel g a s) as [s'| |];
      [by destruct (Hnd s') | done | done].
Qed.

Lemma for_each_helper_fuel fuel ts st :
  size (dom (nodes g) ∖ nodes_in_progress st) < fuel →
  for_each (_build_map_helper fuel g) ts st ≠ OutOfFuel.
Proof.
  intros Hsize Hloop.
  destruct (for_each_stops (_build_map_helper fuel g) ts st)
    as (pre & a & s & _ & _ & Hpre & Heq & Hnd).
  { intros st'. by rewrite Hloop. }
  rewrite Hloop in Heq.
  apply for_each_in_progress in Hpre.
  apply (helper_fuel fuel a s); [by rewrite Hpre |].
  destruct (_build_map_helper fuel g a s) as [s'| |];
    [by destruct (Hnd s') | done | done].
Qed.

(** *** A call that raises *)

Lemma helper_raised fuel :
  well_formed g = true →
  ∀ t st e,
    (∃ x, node_of g t = inr x) →
    (∀ p n, p ∈ nodes_in_progress st → node_id_of g t = Some n →
            tc (edge g) p n) →
    _build_map_helper fuel g t st = Raised e →
    ∃ t' l' n' nd',
      node_of g t' = inr (l', n', nd')
      ∧ e = cycle_error g t' l'
      ∧ tc (edge g) n' n'.
Proof.
  intros Hwf.
  induction fuel as [|fuel IH]; intros t st e Hvalid Hpath Hrun; [done |].
  simpl in Hrun.
  destruct (node_of g t) as [e'|[[l n] nd]] eqn:Ht;
    [by destruct Hvalid |].
  assert (node_id_of g t = Some n) as Hid
      by (apply node_id_of_Some; eauto).
  destruct (decide (n ∈ finished_nodes st)); [done |].
  destruct (decide (n ∈ nodes_in_progress st)) as [Hprog|Hprog].
  { injection Hrun as <-. exists t, l, n, nd. eauto. }
  destruct (for_each _ _ _) as [st1|e1|] eqn:Hloop; [| |done].
  { apply for_each_in_progress in Hloop. simpl in Hloop.
    unfold leave in Hrun.
    destruct (decide (n ∈ nodes_in_progress st1)); [done | set_solver]. }
  injection Hrun as ->.
  destruct (for_each_stops (_build_map_helper fuel g) (inputs_of nd)
              (enter l n st)) as (pre & a & s & Ha & _ & Hpre & Heq & Hnd).
  { intros st'. by rewrite Hloop. }
  rewrite Hloop in Heq.
  apply for_each_in_progress in Hpre. simpl in Hpre.
  apply (IH a s e).
  - destruct (well_formed_input _ _ _ Hwf (node_of_nodes _ _ _ _ Ht) Ha)
      as (? & ? & ? & ?). eauto.
  - intros p m Hp Hm. rewrite Hpre in Hp.
    assert (edge g n m) as Hedge by (by eapply edge_input).
    apply elem_of_union in Hp as [->%elem_of_singleton | Hp].
    + by apply tc_once.
    + by eapply tc_r; [apply Hpath |].
  - destruct (_build_map_helper fuel g a s) as [s'| |];
      [by destruct (Hnd s') | done | done].
Qed.

(** *** The whole traversal *)

Lemma for_each_app {A S} (f : A → S → outcome S) (l1 l2 : list A) st :
  for_each f (l1 ++ l2) st
  = match for_each f l1 st with
    | Done s => for_each f l2 s
    | r => r
    end.
Proof.
  revert st; induction l1 as [|a l1 IH]; intros st; simpl; [done |].
  by destruct (f a st).
Qed.

Lemma traversal_fuel ts :
  for_each (_build_map_helper (enough_fuel g) g) ts initial ≠ OutOfFuel.
Proof.
  apply for_each_helper_fuel. simpl.
  rewrite difference_empty_L, size_dom. unfold enough_fuel. lia.
Qed.

Lemma traversal_raised ts e :
  well_formed g = true →
  (∀ t, t ∈ ts → ∃ x, node_of g t = inr x) →
  for_each (_build_map_helper (enough_fuel g) g) ts initial = Raised e →
  ∃ t l n nd,
    node_of g t = inr (l, n, nd) ∧ e = cycle_error g t l
    ∧ tc (edge g) n n.
Proof.
  intros Hwf Hvalid Hloop.
  destruct (for_each_stops (_build_map_helper (enough_fuel g) g) ts initial)
    as (pre & a & s & Ha & _ & Hpre & Heq & Hnd).
  { intros st'. by rewrite Hloop. }
  rewrite Hloop in Heq. apply for_each_in_progress in Hpre.
  apply (helper_raised (enough_fuel g) Hwf a s e); [by apply Hvalid | |].
  - intros p n Hp. rewrite Hpre in Hp. set_solver.
  - destruct (_build_map_helper (enough_fuel g) g a s) as [s'| |];
      [by destruct (Hnd s') | done | done].
Qed.

Lemma valid_outputs_spec outputs :
  valid_outputs g outputs = true →
  ∀ t, t ∈ flatten outputs → ∃ x, node_of g t = inr x.
Proof.
  unfold valid_outputs. rewrite forallb_forall. intros Hv t Ht.
  specialize (Hv t (proj1 (list_elem_of_In _ _) Ht)).
  destruct (node_of g t); [done | eauto].
Qed.

(** *** Consequences of the invariant *)

Lemma sorted_tc st n m i :
  invariant g st → tc (edge g) n m →
  nodes_in_decreasing_depth st !! i = Some n →
  ∃ j, j < i ∧ nodes_in_decreasing_depth st !! j = Some m.
Proof.
  intros Hinv Htc. revert i.
  induction Htc as [n m Hnm | n k m Hnk _ IH]; intros i Hi.
  - by apply (inv_sorted _ _ Hinv i n m).
  - destruct (inv_sorted _ _ Hinv i n k Hi Hnk) as (j & Hj & Hk).
    destruct (IH j Hk) as (j' & Hj' & Hm). exists j'. split; [lia | done].
Qed.

Lemma sorted_no_cycle st n :
  invariant g st → n ∈ finished_nodes st → ¬ tc (edge g) n n.
Proof.
  intros Hinv Hn Htc.
  apply (inv_finished _ _ Hinv), list_elem_of_lookup in Hn as [i Hi].
  destruct (sorted_tc st n n i Hinv Htc Hi) as (j & Hj & Hj').
  pose proof (NoDup_lookup _ _ _ _ (inv_NoDup _ _ Hinv) Hi Hj'). lia.
Qed.

Lemma finished_closed st n m :
  invariant g st → rtc (edge g) n m →
  n ∈ finished_nodes st → m ∈ finished_nodes st.
Proof.
  intros Hinv Hrtc. induction Hrtc as [|n k m Hnk _ IH]; [done |].
  intros Hn. apply IH.
  apply (inv_finished _ _ Hinv), list_elem_of_lookup in Hn as [i Hi].
  destruct (inv_sorted _ _ Hinv i n k Hi Hnk) as (j & _ & Hk).
  apply (inv_finished _ _ Hinv), list_elem_of_lookup. eauto.
Qed.

Lemma visited_reaches st st' ts t n :
  visited g st st' ts → t ∈ ts → reaches g t n → n ∈ finished_nodes st'.
Proof.
  intros (Hinv & _ & _ & _ & Hv) Ht (m & Hm & Hrtc).
  destruct (Hv _ Ht) as (m' & Hm' & Hfin).
  apply (finished_closed st' m n Hinv Hrtc). congruence.
Qed.

Lemma reachable_closed outputs n m :
  reachable g outputs n → edge g n m → reachable g outputs m.
Proof.
  intros (t & Ht & k & Hk & Hrtc) Hnm. exists t. split; [done |].
  exists k. split; [done |]. by eapply rtc_r.
Qed.

Lemma listed_once_NoDup n (order : list node) :
  NoDup order → n ∈ order → listed_once n order.
Proof.
  intros Hnd (l1 & l2 & ->)%list_elem_of_split.
  exists l1, l2. split; [done |].
  apply NoDup_app in Hnd as (_ & Hl1 & Hl2).
  apply NoDup_cons in Hl2 as [Hl2 _].
  split; [|done]. intros Hin. apply (Hl1 _ Hin), list_elem_of_here.
Qed.

(** *** The annotation of the listed nodes *)

Lemma foldl_annotate_nodes (order : list node) :
  ∀ g0 n,
    nodes (foldl annotate g0 order) !! n
    = if decide (n ∈ order)
      then set_layer_alias <$> nodes g0 !! n
      else nodes g0 !! n.
Proof.
  induction order as [|a order IH]; intros g0 n; cbn [foldl].
  - by rewrite decide_False by apply not_elem_of_nil.
  - rewrite IH.
    change (nodes (annotate g0 a)) with (alter set_layer_alias a (nodes g0)).
    destruct (decide (n = a)) as [->|Hne].
    + rewrite lookup_alter_eq, (decide_True _ _ (list_elem_of_here _ _)).
      destruct (decide (a ∈ order)); [|done].
      by destruct (nodes g0 !! a).
    + rewrite lookup_alter_ne by done.
      destruct (decide (n ∈ order)) as [Hin|Hnin].
      * by rewrite decide_True by (by apply list_elem_of_further).
      * rewrite decide_False; [done |].
        by intros [?|?]%elem_of_cons.
Qed.

Lemma foldl_annotate_rest (order : list node) :
  ∀ g0,
    keras_history (foldl annotate g0 order) = keras_history g0
    ∧ inbound_nodes (foldl annotate g0 order) = inbound_nodes g0.
Proof.
  induction order as [|a order IH]; intros g0; simpl; [done |].
  by destruct (IH (annotate g0 a)) as [-> ->].
Qed.

Lemma annotated_foldl st :
  invariant g st →
  annotated g (foldl annotate g (nodes_in_decreasing_depth st))
    (nodes_in_decreasing_depth st).
Proof.
  intros Hinv. split; [|split; [|apply foldl_annotate_rest]].
  - intros n Hn. rewrite foldl_annotate_nodes, decide_True by done.
    destruct (inv_layers _ _ Hinv n Hn) as (t & l & nd & Ht & _).
    exists nd. rewrite (node_of_nodes _ _ _ _ Ht). done.
  - intros n Hn. by rewrite foldl_annotate_nodes, decide_False.
Qed.

(** *** Acyclic graphs *)

Lemma ranked_acyclic (rank : node → nat) :
  ranked g rank = true → acyclic g.
Proof.
  unfold ranked. rewrite forallb_forall. intros Hr.
  assert (∀ n m, edge g n m → rank m < rank n) as Hedge.
  { intros n m Hnm.
    destruct (edge_inv _ _ Hnm) as (nd & _ & Hnd & _).
    specialize (Hr (n, nd)). simpl in Hr.
    rewrite forallb_forall in Hr.
    apply Nat.ltb_lt, Hr; [|by apply list_elem_of_In].
    by apply list_elem_of_In, elem_of_map_to_list. }
  assert (∀ n m, tc (edge g) n m → rank m < rank n) as Htc.
  { intros n m Hnm. induction Hnm as [n m Hnm | n k m Hnk _ IH].
    - by apply Hedge.
    - specialize (Hedge _ _ Hnk). lia. }
  intros n Hn. specialize (Htc _ _ Hn). lia.
Qed.

(** On a well-formed acyclic graph the traversal returns. *)
Lemma traversal_done outputs :
  well_formed g = true → valid_outputs g outputs = true → acyclic g →
  ∃ st,
    for_each (_build_map_helper (enough_fuel g) g) (flatten outputs) initial
    = Done st
    ∧ visited g initial st (flatten outputs).
Proof.
  intros Hwf Hvalid Hacyclic.
  destruct (for_each _ _ _) as [st|e|] eqn:Hloop.
  - exists st. split; [done |].
    apply (for_each_helper_done _ _ _ _ invariant_initial Hloop).
  - destruct (traversal_raised _ _ Hwf (valid_outputs_spec _ Hvalid) Hloop)
      as (t & l & n & nd & _ & _ & Htc).
    by destruct (Hacyclic n).
  - by destruct (traversal_fuel (flatten outputs)).
Qed.


(** C6: on an acyclic graph, a node that is reached from two of the
    requested outputs is listed exactly once in the list that
    [_build_map] returns; it is finished once the first of the two
    outputs has been processed, and the helper, called on a tensor of a
    finished node, returns at once and leaves the state as it is. *)
Theorem shared_node_listed_once :
  ∀ (outputs : nest tensor) (i j : nat) (t1 t2 : tensor) (n : node),
    well_formed g = true → valid_outputs g outputs = true → acyclic g →
    i < j →
    flatten outputs !! i = Some t1 → flatten outputs !! j = Some t2 →
    reaches g t1 n → reaches g t2 n →
    (∃ g' order indices,
       _build_map g outputs = Done (g', (order, indices))
       ∧ listed_once n order)
    ∧ (∃ st,
         for_each (_build_map_helper (enough_fuel g) g)
           (take (S i) (flatten outputs)) initial = Done st
         ∧ n ∈ finished_nodes st)
    ∧ (∀ fuel t st,
         node_id_of g t = Some n → n ∈ finished_nodes st →
         _build_map_helper (S fuel) g t st = Done st).
Proof.
  intros outputs i j t1 t2 n Hwf Hvalid Hacyclic Hij Ht1 Ht2 Hn1 Hn2.
  destruct (traversal_done outputs Hwf Hvalid Hacyclic)
    as (st & Hloop & Hvis).
  pose proof Hvis as (Hinv & _).
  split; [|split].
  - exists (foldl annotate g (nodes_in_decreasing_depth st)),
      (nodes_in_decreasing_depth st), (layer_indices st).
    split; [unfold _build_map; by rewrite Hloop |].
    apply listed_once_NoDup; [exact (inv_NoDup _ _ Hinv) |].
    apply (inv_finished _ _ Hinv).
    apply (visited_reaches _ _ _ _ _ Hvis (list_elem_of_lookup_2 _ _ _ Ht2) Hn2).
  - rewrite <- (take_drop (S i) (flatten outputs)), for_each_app in Hloop.
    destruct (for_each _ (take _ _) _) as [st1| |] eqn:Hpre; try done.
    exists st1. split; [done |].
    apply (for_each_helper_done _ _ _ _ invariant_initial) in Hpre.
    apply (visited_reaches _ _ _ t1 _ Hpre); [|done].
    apply list_elem_of_lookup. exists i.
    rewrite lookup_take_lt by lia. done.
  - intros fuel t st0 (l & nd & Ht)%node_id_of_Some Hfin. simpl.
    rewrite Ht. by rewrite decide_True.
Qed.

(** C7: when a node on a cycle (a self-loop or a back edge) is reached
    from the requested outputs, [_build_map] raises the [ValueError] of
    the helper and returns no list; the message holds [str(tensor)] and
    [layer.name] of the offending call, whose node lies on a cycle; and
    the helper raises this error whenever it is called on a tensor whose
    node is in progress and not finished. *)
Theorem cycle_raises :
  ∀ (outputs : nest tensor) (n : node),
    well_formed g = true → valid_outputs g outputs = true →
    reachable g (flatten outputs) n → tc (edge g) n n →
    ∃ t l m nd,
      _build_map g outputs = Raised (cycle_error g t l)
      ∧ node_of g t = inr (l, m, nd)
      ∧ tc (edge g) m m
      ∧ exn_type (cycle_error g t l) = ValueError
      ∧ occurs (tensor_str g t) (exn_msg (cycle_error g t l))
      ∧ occurs (layer_name g l) (exn_msg (cycle_error g t l))
      ∧ (∀ fuel t' l' n' nd' st,
           node_of g t' = inr (l', n', nd') →
           n' ∉ finished_nodes st → n' ∈ nodes_in_progress st →
           _build_map_helper (S fuel) g t' st
           = Raised (cycle_error g t' l')).
Proof.
  intros outputs n Hwf Hvalid (t0 & Ht0 & Hn) Hcycle.
  assert (Hprog : ∀ fuel t' l' n' nd' st,
            node_of g t' = inr (l', n', nd') →
            n' ∉ finished_nodes st → n' ∈ nodes_in_progress st →
            _build_map_helper (S fuel) g t' st
            = Raised (cycle_error g t' l')).
  { intros fuel t' l' n' nd' st Ht' Hfin Hin. simpl. rewrite Ht'.
    by rewrite decide_False, decide_True. }
  unfold _build_map.
  destruct (for_each _ _ _) as [st|e|] eqn:Hloop.
  - exfalso.
    apply (for_each_helper_done _ _ _ _ invariant_initial) in Hloop.
    pose proof Hloop as (Hinv & _).
    apply (sorted_no_cycle st n Hinv); [|done].
    by apply (visited_reaches _ _ _ _ _ Hloop Ht0).
  - destruct (traversal_raised _ _ Hwf (valid_outputs_spec _ Hvalid) Hloop)
      as (t & l & m & nd & Ht & -> & Htc).
    exists t, l, m, nd. do 4 (split; [done |]). split; [|split; [|done]].
    + exists "The tensor ",
        (" at layer " +:+ dquote +:+ layer_name g l +:+ dquote
           +:+ " is part of a cycle.").
      done.
    + exists ("The tensor " +:+ tensor_str g t +:+ " at layer " +:+ dquote),
        (dquote +:+ " is part of a cycle."). simpl.
      by rewrite !append_assoc.
  - by destruct (traversal_fuel (flatten outputs)).
Qed.

End BuildMapFacts.

(** *** The traversal on the two small graphs *)

Section GraphExamples.
Import Py BuildMap Graphs.

Lemma diamond_acyclic : acyclic diamond.
Proof. apply (ranked_acyclic diamond Pos.to_nat). vm_compute. reflexivity. Qed.

Example diamond_order :
  ∃ g' indices,
    _build_map diamond diamond_outputs
    = Done (g', ([11; 12; 13; 14]%positive, indices))
    ∧ map_to_list indices
      = [(3%positive, 3); (4%positive, 0); (2%positive, 1);
         (1%positive, 2)].
Proof. eexists _, _. split; vm_compute; reflexivity. Qed.

Example looped_raises :
  _build_map looped looped_outputs
  = Raised (Exn ValueError
              ("The tensor tensor_3 at layer " +:+ dquote +:+ "layer_3"
                 +:+ dquote +:+ " is part of a cycle.")).
Proof. vm_compute. reflexivity. Qed.

End GraphExamples.


Lemma shared_node_listed_once_witness :
  BuildMap.well_formed Graphs.diamond = true
  ∧ BuildMap.valid_outputs Graphs.diamond Graphs.diamond_outputs = true
  ∧ BuildMap.acyclic Graphs.diamond
  ∧ BuildMap.reaches Graphs.diamond 4%positive 13%positive
  ∧ BuildMap.reaches Graphs.diamond 3%positive 13%positive
  ∧ ∃ g' order indices,
      BuildMap._build_map Graphs.diamond Graphs.diamond_outputs
      = BuildMap.Done (g', (order, indices))
      ∧ BuildMap.listed_once 13%positive order.
Proof.
  assert (Hwf : BuildMap.well_formed Graphs.diamond = true)
    by (vm_compute; reflexivity).
  assert (Hv : BuildMap.valid_outputs Graphs.diamond Graphs.diamond_outputs
               = true) by (vm_compute; reflexivity).
  assert (H4 : BuildMap.reaches Graphs.diamond 4%positive 13%positive).
  { exists 14%positive. split; [vm_compute; reflexivity |].
    apply rtc_once. apply list_elem_of_In. vm_compute. tauto. }
  assert (H3 : BuildMap.reaches Graphs.diamond 3%positive 13%positive).
  { exists 13%positive. split; [vm_compute; reflexivity | apply rtc_refl]. }
  split; [exact Hwf |]. split; [exact Hv |].
  split; [exact diamond_acyclic |].
  split; [exact H4 |]. split; [exact H3 |].
  apply (shared_node_listed_once Graphs.diamond Graphs.diamond_outputs 0 1
           4%positive 3%positive 13%positive Hwf Hv diamond_acyclic);
    [lia | reflexivity | reflexivity | exact H4 | exact H3].
Defined.

Lemma cycle_raises_witness :
  BuildMap.well_formed Graphs.looped = true
  ∧ BuildMap.valid_outputs Graphs.looped Graphs.looped_outputs = true
  ∧ BuildMap.reachable Graphs.looped
      (BuildMap.flatten Graphs.looped_outputs) 13%positive
  ∧ tc (BuildMap.edge Graphs.looped) 13%positive 13%positive
  ∧ ∃ t l,
      BuildMap._build_map Graphs.looped Graphs.looped_outputs
      = BuildMap.Raised (BuildMap.cycle_error Graphs.looped t l).
Proof.
  assert (Hwf : BuildMap.well_formed Graphs.looped = true)
    by (vm_compute; reflexivity).
  assert (Hv : BuildMap.valid_outputs Graphs.looped Graphs.looped_outputs
               = true) by (vm_compute; reflexivity).
  assert (Hr : BuildMap.reachable Graphs.looped
                 (BuildMap.flatten Graphs.looped_outputs) 13%positive).
  { exists 3%positive. split; [apply list_elem_of_here |].
    exists 13%positive. split; [vm_compute; reflexivity | apply rtc_refl]. }
  assert (Hc : tc (BuildMap.edge Graphs.looped) 13%positive 13%positive).
  { apply (tc_l _ _ 12%positive); [|apply tc_once];
      apply list_elem_of_In; vm_compute; tauto. }
  split; [exact Hwf |]. split; [exact Hv |].
  split; [exact Hr |]. split; [exact Hc |].
  destruct (cycle_raises Graphs.looped Graphs.looped_outputs 13%positive
              Hwf Hv Hr Hc) as (t & l & m & nd & H1 & _).
  by exists t, l.
Defined.

(** * Part III: further properties of the module *)

(** ** The log filter, case by case *)

Section LogFilterCases.
Import Py TFLogFilter.

Variable getMessage : LogRecord → string.


End LogFilterCases.


(** ** Markers through inheritance *)

Section InheritanceFacts.
Import Py Marker Inheritance.

Lemma inherits_init_lookup (c : pyclass) :
  inherits_init c →
  lookup_mro "__init__" (mro c)
  = Some (MethodRaise (Exn RuntimeError "cannot instantiate")).
Proof.
  induction 1 as [|name base dict _ IH Hdict]; [reflexivity |].
  simpl. by rewrite Hdict.
Qed.

Lemma inherits_init_subclass (c : pyclass) :
  inherits_init c → subclass c NoType.
Proof. induction 1; by constructor. Qed.


End InheritanceFacts.


(** ** The nengo shims of the legacy branch *)

Section ShimFacts.
Import Py Shims.

Context {A : Type}.

Lemma od_set_fresh (k : string) (v : A) (d : odict A) :
  k ∉ d.*1 → od_set A k v d = d ++ [(k, v)].
Proof.
  induction d as [|[k' v'] d IH]; simpl; [done |].
  intros Hk. apply not_elem_of_cons in Hk as [Hne Hk].
  destruct (String.eqb k' k) eqn:E; [by apply String.eqb_eq in E |].
  by rewrite IH.
Qed.

Lemma od_of_pairs_from (acc pairs : list (string * A)) :
  NoDup (acc.*1 ++ pairs.*1) →
  foldl (λ d kv, od_set A kv.1 kv.2 d) acc pairs = acc ++ pairs.
Proof.
  revert acc; induction pairs as [|[k v] pairs IH]; intros acc Hnd; simpl.
  - by rewrite app_nil_r.
  - simpl in Hnd. rewrite od_set_fresh.
    + rewrite IH; [by rewrite <- app_assoc |].
      rewrite fmap_app. simpl. by rewrite <- app_assoc.
    + apply NoDup_app in Hnd as (_ & Hdisj & _).
      intros Hin. apply (Hdisj _ Hin), list_elem_of_here.
Qed.

Lemma od_of_pairs_NoDup (pairs : list (string * A)) :
  NoDup pairs.*1 → od_of_pairs A pairs = pairs.
Proof. intros Hnd. by apply (od_of_pairs_from [] pairs). Qed.

Lemma od_get_lookup (d : odict A) (i : nat) (k : string) (v : A) :
  NoDup d.*1 → d !! i = Some (k, v) → od_get A k d = Some v.
Proof.
  revert i; induction d as [|[k' v'] d IH]; intros i Hnd Hi; [done |].
  simpl in *. apply NoDup_cons in Hnd as [Hk' Hnd].
  destruct i as [|i]; simpl in Hi.
  - injection Hi as -> ->. by rewrite String.eqb_refl.
  - destruct (String.eqb k' k) eqn:E; [|by apply (IH i)].
    apply String.eqb_eq in E as ->. destruct Hk'.
    apply list_elem_of_fmap. exists (k, v). split; [done |].
    by eapply list_elem_of_lookup_2.
Qed.

Lemma neuron_state_returns (neuron_op : SimNeurons A) :
  let names := drop 3 (step_math_params A neuron_op) in
  length names = length (states A neuron_op) → NoDup names →
  neuron_state A neuron_op = ret (zip names (states A neuron_op))
  ∧ (zip names (states A neuron_op)).*1 = names
  ∧ (zip names (states A neuron_op)).*2 = states A neuron_op.
Proof.
  intros names Hlen Hnd. unfold neuron_state. fold names.
  rewrite (proj2 (Nat.eqb_eq _ _) Hlen).
  assert (Hk : (zip names (states A neuron_op)).*1 = names)
    by (apply fst_zip; lia).
  assert (Hv : (zip names (states A neuron_op)).*2 = states A neuron_op)
    by (apply snd_zip; lia).
  by rewrite od_of_pairs_NoDup by (by rewrite Hk).
Qed.

(** X3: the legacy [neuron_state] raises [AssertionError] unless there
    are as many states as parameters of [step_math] after the third (with
    fewer than four parameters: unless there is no state); otherwise it
    returns the dictionary whose keys are those parameter names, in
    order, and whose value under the i-th name is the i-th state.
    Parameter names are distinct, as the language demands. *)
Theorem neuron_state_zips :
  ∀ neuron_op : SimNeurons A,
    let names := drop 3 (step_math_params A neuron_op) in
    (length names ≠ length (states A neuron_op) →
     neuron_state A neuron_op = raise (Exn (OtherError "AssertionError") ""))
    ∧ (length names = length (states A neuron_op) → NoDup names →
       ∃ d, neuron_state A neuron_op = ret d
            ∧ od_keys A d = names
            ∧ od_values A d = states A neuron_op
            ∧ ∀ i name s,
                names !! i = Some name → states A neuron_op !! i = Some s →
                od_get A name d = Some s).
Proof.
  intros neuron_op names. split.
  - intros Hne. unfold neuron_state. fold names.
    by rewrite (proj2 (Nat.eqb_neq _ _) Hne).
  - intros Hlen Hnd.
    destruct (neuron_state_returns neuron_op Hlen Hnd) as (Hd & Hk & Hv).
    eexists. split; [exact Hd |]. split; [exact Hk |]. split; [exact Hv |].
    intros i name s Hname Hs.
    apply (od_get_lookup _ i); [by rewrite Hk |].
    by apply lookup_zip_with_Some; exists name, s.
Qed.

(** X4: the two legacy shims compose: [neuron_step] applied to the
    dictionary that [neuron_state] returns calls
    [step_math(dt, J, output, *neuron_op.states)], the states in their
    own order. *)
Theorem neuron_step_passes_states :
  ∀ (neuron_op : SimNeurons A) (dt J output : A),
    length (drop 3 (step_math_params A neuron_op))
    = length (states A neuron_op) →
    NoDup (drop 3 (step_math_params A neuron_op)) →
    ∃ state,
      neuron_state A neuron_op = ret state
      ∧ neuron_step A dt J output state
        = StepMath A (dt :: J :: output :: states A neuron_op).
Proof.
  intros neuron_op dt J output Hlen Hnd.
  destruct (neuron_state_returns neuron_op Hlen Hnd) as (Hd & _ & Hv).
  eexists. split; [exact Hd |]. unfold neuron_step, od_values.
  by rewrite Hv.
Qed.

End ShimFacts.

Lemma neuron_state_zips_witness :
  let lif :=
    {| Shims.step_math_params :=
         ["dt"; "J"; "output"; "voltage"; "refractory_time"];
       Shims.states := [10; 20] |} in
  let rate :=
    {| Shims.step_math_params := ["dt"; "J"; "output"];
       Shims.states := [10] |} in
  (∃ d, Shims.neuron_state nat lif = Py.ret d
        ∧ Shims.od_get nat "refractory_time" d = Some 20)
  ∧ Shims.neuron_state nat rate
    = Py.raise (Py.Exn (Py.OtherError "AssertionError") "").
Proof.
  intros lif rate. split.
  - destruct (proj2 (neuron_state_zips lif)) as (d & Hd & _ & _ & Hget);
      [reflexivity | vm_compute; repeat constructor; set_solver |].
    exists d. split; [exact Hd |]. by apply (Hget 1).
  - apply (proj1 (neuron_state_zips rate)). simpl. lia.
Defined.

Lemma neuron_step_passes_states_witness :
  let lif :=
    {| Shims.step_math_params :=
         ["dt"; "J"; "output"; "voltage"; "refractory_time"];
       Shims.states := [10; 20] |} in
  ∃ state,
    Shims.neuron_state nat lif = Py.ret state
    ∧ Shims.neuron_step nat 1 2 3 state = Shims.StepMath nat [1; 2; 3; 10; 20].
Proof.
  intros lif.
  apply (neuron_step_passes_states lif 1 2 3);
    [reflexivity | vm_compute; repeat constructor; set_solver].
Defined.

(** ** The patch of [_conform_to_reference_input] *)

Section ConformFacts.
Import Py Conform.

Context {History Data Self Ref : Type}.

Notation Tensor := (Tensor History Data).
Notation patched := (_conform_to_reference_input History Data Self Ref).

Lemma set_keras_history_id (h : History) (tensor : Tensor) :
  _keras_history _ _ tensor = Some h →
  set_keras_history _ _ h tensor = tensor.
Proof. destruct tensor as [kh d]. simpl. by intros ->. Qed.

(** X5: the patched method raises what the wrapped method raises; when
    the wrapped method returns, the patched one returns the same tensor
    with the history of the argument put back, if the argument had one.
    Hence it returns exactly what the wrapped method returns wherever
    that one keeps the history, and wrapping a method twice is the same
    as wrapping it once. *)
Theorem conform_restores_history :
  ∀ (old_conform : method History Data Self Ref)
    (self : Self) (tensor : Tensor) (ref_input : Ref),
    (∀ e, old_conform self tensor ref_input = raise e →
          patched old_conform self tensor ref_input = raise e)
    ∧ (∀ tensor', old_conform self tensor ref_input = ret tensor' →
         ∃ result,
           patched old_conform self tensor ref_input = ret result
           ∧ data _ _ result = data _ _ tensor'
           ∧ (∀ h, _keras_history _ _ tensor = Some h →
                   _keras_history _ _ result = Some h)
           ∧ (_keras_history _ _ tensor = None → result = tensor')
           ∧ (_keras_history _ _ tensor' = _keras_history _ _ tensor →
              result = tensor'))
    ∧ patched (patched old_conform) self tensor ref_input
      = patched old_conform self tensor ref_input.
Proof.
  intros old_conform self tensor ref_input.
  unfold _conform_to_reference_input.
  destruct (old_conform self tensor ref_input) as [e|tensor'] eqn:Hold;
    simpl.
  - split; [by intros e' [= <-] |]. split; [done |].
    by destruct (_keras_history _ _ tensor).
  - split; [done |]. split.
    + intros ? [= <-].
      destruct (_keras_history _ _ tensor) as [h|] eqn:Hh; simpl.
      * eexists. split; [done |]. split; [done |].
        split; [by intros ? [= <-] |]. split; [done |].
        intros Heq. by apply set_keras_history_id.
      * eexists. split; [done |]. split; [done |]. done.
    + by destruct (_keras_history _ _ tensor).
Qed.

End ConformFacts.

Lemma conform_restores_history_witness :
  let cast : Conform.method nat string unit unit :=
    λ _ tensor _,
      Py.ret {| Conform._keras_history := None;
                Conform.data := Conform.data _ _ tensor +:+ ":float32" |} in
  let tensor :=
    {| Conform._keras_history := Some 7; Conform.data := "x" |} in
  cast () tensor ()
  = Py.ret {| Conform._keras_history := None; Conform.data := "x:float32" |}
  ∧ Conform._conform_to_reference_input _ _ _ _ cast () tensor ()
    = Py.ret {| Conform._keras_history := Some 7;
                Conform.data := "x:float32" |}.
Proof.
  intros cast tensor. split; [reflexivity |].
  destruct (proj1 (proj2 (conform_restores_history cast () tensor ()))
              _ eq_refl) as (result & Hr & Hd & Hh & _).
  rewrite Hr. f_equal. destruct result as [kh d]. simpl in *.
  by rewrite (Hh 7 eq_refl), Hd.
Defined.

(** ** The graph traversal on any graph *)

Section BuildMapAnyGraph.
Import Py BuildMap.
Variable g : Graph.

Lemma index_error {X} (l : list X) (i : Z) (e : exn) :
  index l i = inl e → exn_type e = IndexError.
Proof.
  unfold index. destruct (_ && _); [|by intros [= <-]].
  destruct (l !! _); [done | by intros [= <-]].
Qed.

Lemma node_of_error (t : tensor) (e : exn) :
  node_of g t = inl e →
  exn_type e = AttributeError ∨ exn_type e = IndexError.
Proof.
  unfold node_of.
  destruct (keras_history g !! t) as [[[l i] j]|]; [|intros [= <-]; by left].
  destruct (inbound_nodes g !! l) as [ns|]; [|intros [= <-]; by left].
  destruct (index ns i) as [e'|n] eqn:Hi; simpl.
  - intros [= <-]. right. by eapply index_error.
  - destruct (nodes g !! n); [done | intros [= <-]; by left].
Qed.

(** A raise is the cycle error of a call whose node lies on a cycle, or
    the error of a failed look-up. *)
Lemma helper_raised_any fuel :
  ∀ t st e,
    (∀ p n, p ∈ nodes_in_progress st → node_id_of g t = Some n →
            tc (edge g) p n) →
    _build_map_helper fuel g t st = Raised e →
    (∃ t' l' n' nd',
       node_of g t' = inr (l', n', nd') ∧ e = cycle_error g t' l'
       ∧ tc (edge g) n' n')
    ∨ (∃ t', node_of g t' = inl e).
Proof.
  induction fuel as [|fuel IH]; intros t st e Hpath Hrun; [done |].
  simpl in Hrun.
  destruct (node_of g t) as [e'|[[l n] nd]] eqn:Ht.
  { injection Hrun as <-. right. eauto. }
  assert (node_id_of g t = Some n) as Hid
      by (apply node_id_of_Some; eauto).
  destruct (decide (n ∈ finished_nodes st)); [done |].
  destruct (decide (n ∈ nodes_in_progress st)) as [Hprog|Hprog].
  { injection Hrun as <-. left. exists t, l, n, nd. eauto. }
  destruct (for_each _ _ _) as [st1|e1|] eqn:Hloop; [| |done].
  { apply for_each_in_progress in Hloop. simpl in Hloop.
    unfold leave in Hrun.
    destruct (decide (n ∈ nodes_in_progress st1)); [done | set_solver]. }
  injection Hrun as ->.
  destruct (for_each_stops (_build_map_helper fuel g) (inputs_of nd)
              (enter l n st)) as (pre & a & s & Ha & _ & Hpre & Heq & Hnd).
  { intros st'. by rewrite Hloop. }
  rewrite Hloop in Heq.
  apply for_each_in_progress in Hpre. simpl in Hpre.
  apply (IH a s e).
  - intros p m Hp Hm. rewrite Hpre in Hp.
    assert (edge g n m) as Hedge by (by eapply edge_input).
    apply elem_of_union in Hp as [->%elem_of_singleton | Hp].
    + by apply tc_once.
    + by eapply tc_r; [apply Hpath |].
  - destruct (_build_map_helper fuel g a s) as [s'| |];
      [by destruct (Hnd s') | done | done].
Qed.


(** *** What a call adds *)

Lemma helper_extends fuel :
  ∀ t st st',
    _build_map_helper fuel g t st = Done st' →
    nodes_in_decreasing_depth st `prefix_of` nodes_in_decreasing_depth st'
    ∧ layer_indices st ⊆ layer_indices st'.
Proof.
  induction fuel as [|fuel IH]; intros t st st' Hrun; [done |].
  simpl in Hrun.
  destruct (node_of g t) as [e|[[l n] nd]] eqn:Ht; [done |].
  destruct (decide (n ∈ finished_nodes st)); [by injection Hrun as <- |].
  destruct (decide (n ∈ nodes_in_progress st)); [done |].
  destruct (for_each _ _ _) as [st1| |] eqn:Hloop; try done.
  assert (nodes_in_decreasing_depth st
            `prefix_of` nodes_in_decreasing_depth st1
          ∧ layer_indices st ⊆ layer_indices st1) as [Hp Hl].
  { refine (for_each_done (_build_map_helper fuel g)
              (λ _ s, nodes_in_decreasing_depth st
                        `prefix_of` nodes_in_decreasing_depth s
                      ∧ layer_indices st ⊆ layer_indices s)
              (inputs_of nd) _ [] (enter l n st) st1 _ Hloop).
    - intros pre a s s' _ [Hp Hl] Ha. destruct (IH a s s' Ha) as [Hp' Hl'].
      split; [by trans (nodes_in_decreasing_depth s) |].
      by trans (layer_indices s).
    - split; [done | apply store_index_subseteq]. }
  unfold leave in Hrun.
  destruct (decide (n ∈ nodes_in_progress st1)); [|done].
  injection Hrun as <-. simpl. split; [|done].
  by apply prefix_app_r.
Qed.

Lemma for_each_helper_extends fuel ts st st' :
  for_each (_build_map_helper fuel g) ts st = Done st' →
  nodes_in_decreasing_depth st `prefix_of` nodes_in_decreasing_depth st'
  ∧ layer_indices st ⊆ layer_indices st'.
Proof.
  intros Hloop.
  refine (for_each_done (_build_map_helper fuel g)
            (λ _ s, nodes_in_decreasing_depth st
                      `prefix_of` nodes_in_decreasing_depth s
                    ∧ layer_indices st ⊆ layer_indices s)
            ts _ [] st st' _ Hloop); [|done].
  intros pre a s s' _ [Hp Hl] Ha.
  destruct (helper_extends fuel a s s' Ha) as [Hp' Hl'].
  split; [by trans (nodes_in_decreasing_depth s) |].
  by trans (layer_indices s).
Qed.

(** X7: outputs are processed from left to right and later outputs only
    add to the result: when [_build_map] returns for a sequence of
    outputs, it returns for the first of them alone, with a list that is
    a prefix of the list for the whole sequence and with layer indices
    that the whole sequence keeps. *)
Theorem build_map_first_output :
  ∀ (first : nest tensor) (rest : list (nest tensor)) g2 order2 indices2,
    _build_map g (Seq (first :: rest)) = Done (g2, (order2, indices2)) →
    ∃ g1 order1 indices1,
      _build_map g first = Done (g1, (order1, indices1))
      ∧ order1 `prefix_of` order2
      ∧ indices1 ⊆ indices2.
Proof.
  intros first rest g2 order2 indices2. unfold _build_map.
  change (flatten (Seq (first :: rest)))
    with (flatten first ++ flatten (Seq rest)).
  rewrite for_each_app.
  destruct (for_each _ (flatten first) _) as [st1| |] eqn:H1; try done.
  destruct (for_each _ (flatten (Seq rest)) _) as [st2| |] eqn:H2; try done.
  intros [= <- <- <-].
  destruct (for_each_helper_extends _ _ _ _ H2) as [Hp Hl].
  eexists _, _, _. split; [done |]. done.
Qed.

End BuildMapAnyGraph.

Lemma build_map_first_output_witness :
  ∃ g2 order2 indices2 g1 order1 indices1,
    BuildMap._build_map Graphs.diamond Graphs.diamond_outputs
    = BuildMap.Done (g2, (order2, indices2))
    ∧ BuildMap._build_map Graphs.diamond (BuildMap.Leaf 4%positive)
      = BuildMap.Done (g1, (order1, indices1))
    ∧ order1 `prefix_of` order2
    ∧ indices1 ⊆ indices2.
Proof.
  destruct (BuildMap._build_map Graphs.diamond Graphs.diamond_outputs)
    as [[g2 [order2 indices2]]| |] eqn:H2;
    [|by vm_compute in H2 ..].
  exists g2, order2, indices2.
  destruct (build_map_first_output Graphs.diamond (BuildMap.Leaf 4%positive)
              [BuildMap.Leaf 3%positive] g2 order2 indices2 H2)
    as (g1 & order1 & indices1 & H1 & Hp & Hl).
  by exists g1, order1, indices1.
Defined.

(** ** The layer indices *)

Section IndicesFacts.
Import Py BuildMap Indices.
Variable g : Graph.

Lemma numbered_initial : numbered g initial.
Proof.
  split; [|split]; simpl.
  - intros i Hi. rewrite map_size_empty in Hi. lia.
  - intros l [i Hi]. by rewrite lookup_empty in Hi.
  - rewrite map_size_empty. lia.
Qed.

Lemma numbered_enter t l n nd st :
  node_of g t = inr (l, n, nd) →
  n ∉ finished_nodes st → n ∉ nodes_in_progress st →
  numbered g st → numbered g (enter l n st).
Proof.
  intros Ht Hfin Hprog (Hsurj & Hlayer & Hsize).
  assert (size (finished_nodes st ∪ ({[n]} ∪ nodes_in_progress st))
          = S (size (finished_nodes st ∪ nodes_in_progress st))) as Hgrow.
  { replace (finished_nodes st ∪ ({[n]} ∪ nodes_in_progress st))
      with ({[n]} ∪ (finished_nodes st ∪ nodes_in_progress st))
      by set_solver.
    rewrite size_union by set_solver. by rewrite size_singleton. }
  split; [|split]; simpl; unfold store_index.
  - destruct (layer_indices st !! l) as [i0|] eqn:Hl; [done |].
    intros i Hi. rewrite map_size_insert_None in Hi by done.
    destruct (decide (i = size (layer_indices st))) as [->|Hne].
    + exists l. by rewrite lookup_insert_eq.
    + destruct (Hsurj i) as [l' Hl']; [lia |].
      exists l'. rewrite lookup_insert_ne; [done |]. congruence.
  - intros l' Hl'.
    destruct (decide (l' = l)) as [->|Hne].
    + exists t, n, nd. split; [done |]. right. set_solver.
    + destruct (Hlayer l') as (t' & n' & nd' & Ht' & Hn').
      { destruct (layer_indices st !! l); [done |].
        by rewrite lookup_insert_ne in Hl'. }
      exists t', n', nd'. split; [done |]. set_solver.
  - rewrite Hgrow.
    destruct (layer_indices st !! l) eqn:Hl; [lia |].
    rewrite map_size_insert_None by done. lia.
Qed.

Lemma numbered_leave n st st' :
  leave n st = Done st' → numbered g st → numbered g st'.
Proof.
  unfold leave. destruct (decide (n ∈ nodes_in_progress st)) as [Hn|]; [|done].
  intros [= <-] (Hsurj & Hlayer & Hsize).
  split; [done |]. split; simpl.
  - intros l Hl. destruct (Hlayer l Hl) as (t & n' & nd & Ht & Hn').
    exists t, n', nd. split; [done |].
    destruct (decide (n' = n)) as [->|Hne]; [left; set_solver |].
    set_solver.
  - replace ({[n]} ∪ finished_nodes st ∪ nodes_in_progress st ∖ {[n]})
      with (finished_nodes st ∪ nodes_in_progress st); [done |].
    apply set_eq. intros x. destruct (decide (x = n)); set_solver.
Qed.

Lemma helper_numbered fuel :
  ∀ t st st',
    _build_map_helper fuel g t st = Done st' →
    numbered g st → numbered g st'.
Proof.
  induction fuel as [|fuel IH]; intros t st st' Hrun Hnum; [done |].
  simpl in Hrun.
  destruct (node_of g t) as [e|[[l n] nd]] eqn:Ht; [done |].
  destruct (decide (n ∈ finished_nodes st)); [by injection Hrun as <- |].
  destruct (decide (n ∈ nodes_in_progress st)); [done |].
  destruct (for_each _ _ _) as [st1| |] eqn:Hloop; try done.
  apply (numbered_leave n st1 st' Hrun).
  refine (for_each_done (_build_map_helper fuel g) (λ _ s, numbered g s)
            (inputs_of nd) _ [] (enter l n st) st1 _ Hloop).
  - intros pre a s s' _ Hs Ha. by apply (IH a s s').
  - by apply (numbered_enter t l n nd).
Qed.

(** X8: whenever [_build_map] returns, on any graph, the layer indices
    are exactly the numbers from 0 to their count less one, each given to
    one layer; every layer with an index is the layer of a tensor of a
    listed node; and there are at most as many indexed layers as listed
    nodes. *)
Theorem layer_indices_numbered :
  ∀ (outputs : nest tensor) g' order indices,
    _build_map g outputs = Done (g', (order, indices)) →
    (∀ l i, indices !! l = Some i → i < size indices)
    ∧ (∀ l l' i, indices !! l = Some i → indices !! l' = Some i → l = l')
    ∧ (∀ i, i < size indices → ∃ l, indices !! l = Some i)
    ∧ (∀ l, is_Some (indices !! l) →
            ∃ t n nd, node_of g t = inr (l, n, nd) ∧ n ∈ order)
    ∧ size indices ≤ length order.
Proof.
  intros outputs g' order indices. unfold _build_map.
  destruct (for_each _ _ _) as [st| |] eqn:Hloop; try done.
  intros [= _ <- <-].
  pose proof (for_each_in_progress g _ _ _ _ Hloop) as Hprog.
  pose proof (for_each_helper_done g _ _ _ _ (invariant_initial g) Hloop)
    as (Hinv & _).
  assert (numbered g st) as (Hsurj & Hlayer & Hsize).
  { refine (for_each_done (_build_map_helper (enough_fuel g) g)
              (λ _ s, numbered g s) (flatten outputs) _ [] initial st
              numbered_initial Hloop).
    intros pre a s s' _ Hs Ha.
    by apply (helper_numbered (enough_fuel g) a s s'). }
  simpl in Hprog. rewrite Hprog in Hlayer, Hsize.
  split; [exact (inv_index_bound _ _ Hinv) |].
  split; [exact (inv_index_inj _ _ Hinv) |].
  split; [exact Hsurj |]. split.
  - intros l Hl. destruct (Hlayer l Hl) as (t & n & nd & Ht & [Hn | Hn]);
      [|set_solver].
    exists t, n, nd. split; [done |]. by apply (inv_finished _ _ Hinv).
  - rewrite union_empty_r_L in Hsize.
    replace (finished_nodes st)
      with (list_to_set (C := gset node) (nodes_in_decreasing_depth st))
      in Hsize.
    + by rewrite size_list_to_set in Hsize by exact (inv_NoDup _ _ Hinv).
    + apply set_eq. intros x. rewrite elem_of_list_to_set.
      apply (inv_finished _ _ Hinv).
Qed.

End IndicesFacts.

Lemma layer_indices_numbered_witness :
  ∃ g' order indices,
    BuildMap._build_map Graphs.diamond Graphs.diamond_outputs
    = BuildMap.Done (g', (order, indices))
    ∧ (∀ i, i < size indices → ∃ l, indices !! l = Some i)
    ∧ size indices ≤ length order.
Proof.
  destruct (BuildMap._build_map Graphs.diamond Graphs.diamond_outputs)
    as [[g2 [order2 indices2]]| |] eqn:H2;
    [|by vm_compute in H2 ..].
  exists g2, order2, indices2. split; [done |].
  destruct (layer_indices_numbered Graphs.diamond Graphs.diamond_outputs
              g2 order2 indices2 H2) as (_ & _ & H3 & _ & H5).
  done.
Defined.

(** ** Running the traversal again *)

Section BuildMapAgain.
Import Py BuildMap.
Variable g : Graph.

Lemma for_each_ext {X S} (f f' : X → S → outcome S) (l : list X) (st : S) :
  (∀ a s, f a s = f' a s) → for_each f l st = for_each f' l st.
Proof.
  intros Hf. revert st; induction l as [|a l IH]; intros st; simpl; [done |].
  rewrite Hf. destruct (f' a st); [apply IH | done | done].
Qed.

Lemma foldl_annotate_names (order : list node) :
  ∀ g0,
    layer_name (foldl annotate g0 order) = layer_name g0
    ∧ tensor_str (foldl annotate g0 order) = tensor_str g0.
Proof.
  induction order as [|a order IH]; intros g0; simpl; [done |].
  by destruct (IH (annotate g0 a)) as [-> ->].
Qed.

Lemma foldl_annotate_size (order : list node) :
  ∀ g0, size (nodes (foldl annotate g0 order)) = size (nodes g0).
Proof.
  induction order as [|a order IH]; intros g0; simpl; [done |].
  rewrite IH. simpl. by rewrite <- !size_dom, dom_alter_L.
Qed.

Lemma graph_eq (g1 g2 : Graph) :
  keras_history g1 = keras_history g2 →
  inbound_nodes g1 = inbound_nodes g2 →
  nodes g1 = nodes g2 →
  layer_name g1 = layer_name g2 →
  tensor_str g1 = tensor_str g2 →
  g1 = g2.
Proof. destruct g1, g2. simpl. by intros -> -> -> -> ->. Qed.

(** Annotating the nodes of a list a second time changes nothing. *)
Lemma foldl_annotate_twice (order : list node) :
  foldl annotate (foldl annotate g order) order = foldl annotate g order.
Proof.
  destruct (foldl_annotate_rest order (foldl annotate g order)) as [Hk Hi].
  destruct (foldl_annotate_names order (foldl annotate g order)) as [Hl Ht].
  apply graph_eq; try done.
  apply map_eq. intros n. rewrite !foldl_annotate_nodes.
  destruct (decide (n ∈ order)); [|done].
  by destruct (nodes g !! n).
Qed.

Lemma node_of_annotated (order : list node) (t : tensor) :
  node_of (foldl annotate g order) t
  = match node_of g t with
    | inl e => inl e
    | inr (l, n, nd) =>
        inr (l, n, if decide (n ∈ order) then set_layer_alias nd else nd)
    end.
Proof.
  unfold node_of.
  destruct (foldl_annotate_rest order g) as [-> ->].
  destruct (keras_history g !! t) as [[[l i] j]|]; [|done].
  destruct (inbound_nodes g !! l) as [ns|]; [|done].
  destruct (index ns i) as [e|n]; simpl; [done |].
  rewrite foldl_annotate_nodes.
  destruct (nodes g !! n) as [nd|]; unfold ret, raise; cbn;
    repeat case_decide; done.
Qed.

(** The helper does not look at the attribute that [_build_map] sets. *)
Lemma helper_annotated (order : list node) fuel :
  ∀ t st,
    _build_map_helper fuel (foldl annotate g order) t st
    = _build_map_helper fuel g t st.
Proof.
  induction fuel as [|fuel IH]; intros t st; [done |].
  simpl. rewrite node_of_annotated.
  destruct (node_of g t) as [e|[[l n] nd]]; [done |].
  destruct (decide (n ∈ finished_nodes st)); [done |].
  destruct (decide (n ∈ nodes_in_progress st)).
  { unfold cycle_error.
    by destruct (foldl_annotate_names order g) as [-> ->]. }
  replace (inputs_of (if decide (n ∈ order) then set_layer_alias nd else nd))
    with (inputs_of nd) by (by destruct (decide (n ∈ order))).
  by rewrite (for_each_ext _ (_build_map_helper fuel g) _ _ IH).
Qed.

(** X9: [_build_map] can be run again: on the graph that a first run
    has annotated, a second run with the same outputs returns the same
    list and the same layer indices and leaves the graph as the first run
    left it. *)
Theorem build_map_again :
  ∀ (outputs : nest tensor) g' result,
    _build_map g outputs = Done (g', result) →
    _build_map g' outputs = Done (g', result).
Proof.
  intros outputs g' result. unfold _build_map.
  destruct (for_each _ _ initial) as [st| |] eqn:Hloop; try done.
  intros [= <- <-].
  unfold enough_fuel. rewrite foldl_annotate_size.
  rewrite (for_each_ext _ (_build_map_helper (S (size (nodes g))) g) _ _
             (helper_annotated _ _)).
  unfold enough_fuel in Hloop. rewrite Hloop.
  by rewrite foldl_annotate_twice.
Qed.

End BuildMapAgain.

Lemma build_map_again_witness :
  ∃ g' result,
    BuildMap._build_map Graphs.diamond Graphs.diamond_outputs
    = BuildMap.Done (g', result)
    ∧ BuildMap._build_map g' Graphs.diamond_outputs
      = BuildMap.Done (g', result).
Proof.
  destruct (BuildMap._build_map Graphs.diamond Graphs.diamond_outputs)
    as [[g2 result]| |] eqn:H2; [|by vm_compute in H2 ..].
  exists g2, result. split; [done |].
  by apply (build_map_again Graphs.diamond Graphs.diamond_outputs).
Defined.

(** ** Loading the module: the logger and the installation *)

Section LoadingFacts.
Import Py Marker Versions Resolver Loading.
Context `{HP : Packaging}.
Variable env : environment.

(** *** Which statements leave the logger alone *)

Lemma silent_ret {A} (a : A) : silent (mret a).
Proof. by intros s r s' [= <- <-]. Qed.

Lemma silent_lift {A} (r : result A) : silent (lift r).
Proof. by intros s r' s' [= <- <-]. Qed.

Lemma silent_assign name v : silent (assign name v).
Proof. by intros s r s' [= <- <-]. Qed.

Lemma silent_setattr target attr v : silent (setattr target attr v).
Proof. by intros s r s' [= <- <-]. Qed.

Lemma silent_getattr target attr : silent (getattr env target attr).
Proof.
  unfold getattr. destruct (has_attr env target attr);
    [apply silent_ret | apply silent_lift].
Qed.

Lemma silent_bind {A B} (m : M A) (k : A → M B) :
  silent m → (∀ a, silent (k a)) → silent (m ≫= k).
Proof.
  intros Hm Hk s r s'. unfold mbind, M_bind.
  destruct (m s) as [[e|a] s1] eqn:E.
  - intros [= <- <-]. eauto.
  - intros Hs. rewrite (Hk _ _ _ _ Hs). eauto.
Qed.

Lemma silent_seq {A} (m : M unit) (k : M A) :
  silent m → silent k → silent (m;; k).
Proof. intros Hm Hk. apply silent_bind; [done | by intros _]. Qed.

Lemma silent_load_module m : silent (load_module env m).
Proof.
  unfold load_module. destruct (import_error env m);
    [apply silent_lift | apply silent_ret].
Qed.

Lemma silent_import_as m name : silent (import_as env m name).
Proof. apply silent_seq; [apply silent_load_module | apply silent_assign]. Qed.

Lemma silent_import_names m names : silent (import_names env m names).
Proof.
  induction names as [|a names IH]; simpl; [apply silent_ret |].
  apply silent_seq; [|done].
  destruct (has_attr env m a); [apply silent_assign | apply silent_lift].
Qed.

Lemma silent_from_import m names : silent (from_import env m names).
Proof.
  apply silent_seq; [apply silent_load_module | apply silent_import_names].
Qed.

Lemma silent_try_except_ImportError body handler :
  silent body → silent handler →
  silent (try_except_ImportError body handler).
Proof.
  intros Hb Hh s r s'. unfold try_except_ImportError.
  destruct (body s) as [[e|a] s1] eqn:E.
  - destruct (is_ImportError e).
    + intros Hs. rewrite (Hh _ _ _ Hs). eauto.
    + intros [= <- <-]. eauto.
  - intros [= <- <-]. eauto.
Qed.

Ltac silent_steps :=
  repeat first
    [ apply silent_assign | apply silent_from_import | apply silent_import_as
    | apply silent_setattr | apply silent_ret | apply silent_lift
    | apply silent_getattr | apply silent_seq
    | apply silent_try_except_ImportError
    | apply silent_bind; [| intros ?]
    | match goal with |- silent (if ?b then _ else _) => destruct b end ].

Lemma silent_imports : silent (imports env).
Proof. unfold imports. silent_steps. Qed.

Lemma silent_tensorflow_compat : silent (tensorflow_compat env).
Proof. unfold tensorflow_compat. silent_steps. Qed.

Lemma silent_nengo_compat : silent (nengo_compat env).
Proof. unfold nengo_compat, import_ConvolutionTranspose. silent_steps. Qed.

Lemma silent_import_keras_spiking : silent (import_keras_spiking env).
Proof. unfold import_keras_spiking. silent_steps. Qed.

Lemma definitions_run s :
  ∃ s', definitions s = (inr tt, s')
        ∧ log_filters s' = log_filters s ++ [TFLogFilter.__init__ false].
Proof. eexists. split; reflexivity. Qed.

Lemma seq_cases {A} (m : M unit) (k : M A) s r s' :
  (m;; k) s = (r, s') →
  (∃ e, m s = (inl e, s') ∧ r = inl e)
  ∨ ∃ s1, m s = (inr tt, s1) ∧ k s1 = (r, s').
Proof.
  unfold seq, mbind, M_bind. destruct (m s) as [[e|[]] s1].
  - intros [= <- <-]. left. eauto.
  - intros Hk. right. eauto.
Qed.

Lemma load_log_filters r s :
  load env = (r, s) →
  (log_filters s = [] ∧ ∃ e, r = inl e)
  ∨ log_filters s = [TFLogFilter.__init__ false].
Proof.
  unfold load, compat. intros Hs.
  apply seq_cases in Hs as [(e & Hi & ->) | (s1 & Hi & Hs)].
  { left. apply silent_imports in Hi. split; [done | eauto]. }
  apply silent_imports in Hi.
  destruct (definitions_run s1) as (s2 & Hd & Hf).
  apply seq_cases in Hs as [(e & Hd' & _) | (s2' & Hd' & Hs)];
    [congruence |].
  assert (s2' = s2) as -> by congruence.
  right.
  assert (Hrest : silent (tensorflow_compat env;; nengo_compat env;;
                          assign "eager_enabled" (VFunc F_eager_enabled);;
                          import_keras_spiking env)).
  { repeat apply silent_seq;
      auto using silent_tensorflow_compat, silent_nengo_compat,
        silent_assign, silent_import_keras_spiking. }
  rewrite (Hrest _ _ _ Hs), Hf, Hi. reflexivity.
Qed.

Lemma filter_lenient getMessage record :
  ∃ b, TFLogFilter.filter getMessage (TFLogFilter.__init__ false) record
       = ret b.
Proof.
  unfold TFLogFilter.filter. cbn [TFLogFilter.err_on_deprecation andb].
  repeat case_match; eauto.
Qed.


(** *** Statements that return *)

Lemma yields_ret {A} (a : A) : yields (mret a) a.
Proof. intros s. by exists s. Qed.

Lemma yields_lift {A} (a : A) : yields (lift (inr a)) a.
Proof. intros s. by exists s. Qed.

Lemma yields_assign name v : yields (assign name v) tt.
Proof. intros s. by eexists. Qed.

Lemma yields_setattr target attr v : yields (setattr target attr v) tt.
Proof. intros s. by eexists. Qed.

Lemma yields_addFilter f : yields (addFilter f) tt.
Proof. intros s. by eexists. Qed.

Lemma yields_bind {A B} (m : M A) (k : A → M B) a b :
  yields m a → yields (k a) b → yields (m ≫= k) b.
Proof.
  intros Hm Hk s. destruct (Hm s) as [s1 E].
  unfold mbind, M_bind. rewrite E. apply Hk.
Qed.

Lemma yields_seq {A} (m : M unit) (k : M A) b :
  yields m tt → yields k b → yields (m;; k) b.
Proof. intros Hm Hk. by apply (yields_bind m (λ _, k) tt). Qed.

Lemma yields_getattr target attr :
  has_attr env target attr = true →
  yields (getattr env target attr) (VNative target attr).
Proof. intros Ha. unfold getattr. rewrite Ha. apply yields_ret. Qed.

Lemma import_ok_inv m names :
  import_ok env (m, names) = true →
  import_error env m = None ∧ Forall (λ a, has_attr env m a = true) names.
Proof.
  unfold import_ok. cbn [fst snd].
  destruct (import_error env m); [done |]. intros Hn. split; [done |].
  induction names as [|a names IH]; [constructor |].
  cbn [forallb] in Hn. apply andb_prop in Hn as [? ?]. constructor; auto.
Qed.

Lemma import_ok_intro m names :
  import_error env m = None →
  Forall (λ a, has_attr env m a = true) names →
  import_ok env (m, names) = true.
Proof.
  intros Hm Hn. unfold import_ok. cbn [fst snd]. rewrite Hm.
  induction Hn as [|a names Ha _ IH]; [done |].
  cbn [forallb]. by rewrite Ha, IH.
Qed.

Lemma yields_from_import m names :
  import_ok env (m, names) = true → yields (from_import env m names) tt.
Proof.
  intros [Hm Hn]%import_ok_inv s. eexists. by apply from_import_run.
Qed.

Lemma yields_import_as m name :
  import_ok env (m, []) = true → yields (import_as env m name) tt.
Proof.
  intros [Hm _]%import_ok_inv. unfold import_as, load_module. rewrite Hm.
  apply yields_seq; [apply yields_ret | apply yields_assign].
Qed.

Lemma import_as_inr m name s s' :
  import_as env m name s = (inr tt, s') → import_ok env (m, []) = true.
Proof.
  intros Hs. apply seq_inr in Hs as (s1 & [Hm _]%load_module_inr & _).
  by apply import_ok_intro.
Qed.

Lemma from_import_ok m names s s' :
  from_import env m names s = (inr tt, s') →
  import_ok env (m, names) = true.
Proof.
  intros (_ & Hm & Hn)%from_import_inr. by apply import_ok_intro.
Qed.

Lemma getattr_has_attr target attr s v s' :
  getattr env target attr s = (inr v, s') →
  has_attr env target attr = true.
Proof. unfold getattr. by destruct (has_attr env target attr). Qed.

(** *** The [try] blocks *)

Lemma contained_ok m names :
  import_ok env (m, names) = true → contained (from_import env m names).
Proof. intros Hok s. left. by apply yields_from_import. Qed.

Lemma contained_fails m names :
  import_fails env m names = true → contained (from_import env m names).
Proof. intros Hf s. right. by apply from_import_fails. Qed.

Lemma contained_seq_fails m names k :
  import_fails env m names = true →
  contained (from_import env m names;; k).
Proof.
  intros Hf s. right.
  destruct (from_import_fails env m names s Hf) as (e & s1 & E & He).
  exists e, s1. split; [|done].
  unfold seq, mbind, M_bind. by rewrite E.
Qed.

Lemma contained_seq_ok m k :
  yields m tt → contained k → contained (m;; k).
Proof.
  intros Hm Hk s. destruct (Hm s) as [s1 E].
  unfold seq, mbind, M_bind. rewrite E. apply Hk.
Qed.

Lemma yields_try_except_ImportError body handler :
  contained body → yields handler tt →
  yields (try_except_ImportError body handler) tt.
Proof.
  intros Hb Hh s. unfold try_except_ImportError.
  destruct (Hb s) as [[s' E] | (e & s' & E & He)]; rewrite E.
  - eauto.
  - rewrite He. apply Hh.
Qed.

Lemma try_except_ImportError_contained body handler s s' :
  try_except_ImportError body handler s = (inr tt, s') →
  (∃ s1, body s = (inr tt, s1))
  ∨ (∃ e s1, body s = (inl e, s1) ∧ is_ImportError e = true).
Proof.
  intros [Hb | (e & s1 & Hb & He & _)]%try_except_ImportError_inr; eauto.
Qed.

Lemma yields_import_keras_spiking :
  guarded_ok env keras_spiking_imports = true →
  yields (import_keras_spiking env) tt.
Proof.
  unfold keras_spiking_imports, keras_spiking_names.
  cbn [guarded_ok fst snd]. intros Hg.
  apply yields_try_except_ImportError.
  - apply orb_prop in Hg as [Hf | [Hok _]%andb_prop].
    + by apply contained_fails.
    + by apply contained_ok.
  - repeat apply yields_seq; apply yields_assign.
Qed.

Lemma import_keras_spiking_guarded s s' :
  import_keras_spiking env s = (inr tt, s') →
  guarded_ok env keras_spiking_imports = true.
Proof.
  unfold keras_spiking_imports, keras_spiking_names.
  cbn [guarded_ok fst snd].
  intros [[s1 Hb] | (e & s1 & Hb & He)]%try_except_ImportError_contained.
  - apply from_import_ok in Hb. rewrite Hb. apply orb_true_r.
  - by rewrite (from_import_inl env _ _ _ _ _ Hb He).
Qed.

Lemma yields_import_ConvolutionTranspose :
  guarded_ok env transpose_imports = true →
  yields (import_ConvolutionTranspose env) tt.
Proof.
  unfold transpose_imports. cbn [guarded_ok fst snd]. intros Hg.
  apply yields_try_except_ImportError.
  - apply orb_prop in Hg as [Hf | [Hok Hg]%andb_prop].
    + by apply contained_seq_fails.
    + apply contained_seq_ok; [by apply yields_from_import |].
      apply orb_prop in Hg as [Hf | [Hok' _]%andb_prop].
      * by apply contained_fails.
      * by apply contained_ok.
  - repeat apply yields_seq; apply yields_assign.
Qed.

Lemma import_ConvolutionTranspose_guarded s s' :
  import_ConvolutionTranspose env s = (inr tt, s') →
  guarded_ok env transpose_imports = true.
Proof.
  unfold transpose_imports. cbn [guarded_ok fst snd].
  intros [[s1 Hb] | (e & s1 & Hb & He)]%try_except_ImportError_contained.
  - apply seq_inr in Hb as (s2 & H1%from_import_ok & H2%from_import_ok).
    rewrite H1, H2. cbn [andb]. by rewrite !orb_true_r.
  - apply seq_cases in Hb as [(e' & H1 & [= <-]) | (s2 & H1 & H2)].
    + by rewrite (from_import_inl env _ _ _ _ _ H1 He).
    + apply from_import_ok in H1. rewrite H1.
      rewrite (from_import_inl env _ _ _ _ _ H2 He). apply orb_true_r.
Qed.

(** *** The blocks of the body *)

Ltac yields_steps :=
  repeat first
    [ apply yields_from_import; assumption
    | apply yields_import_as; assumption
    | apply yields_assign | apply yields_setattr | apply yields_addFilter
    | apply yields_ret
    | apply yields_seq ].

Lemma yields_imports :
  forallb (import_ok env) top_imports = true → yields (imports env) tt.
Proof.
  cbn [top_imports forallb]. intros Hi.
  repeat (apply andb_prop in Hi as [? Hi]).
  unfold imports. yields_steps.
Qed.

Lemma imports_ok s s' :
  imports env s = (inr tt, s') →
  forallb (import_ok env) top_imports = true.
Proof.
  unfold imports. intros Hs.
  apply seq_inr in Hs as (s1 & H1%from_import_ok & Hs).
  apply seq_inr in Hs as (s2 & H2%import_as_inr & Hs).
  apply seq_inr in Hs as (s3 & H3%import_as_inr & Hs).
  apply seq_inr in Hs as (s4 & H4%from_import_ok & Hs).
  apply seq_inr in Hs as (s5 & H5%from_import_ok & Hs).
  apply seq_inr in Hs as (s6 & H6%import_as_inr & H7%from_import_ok).
  cbn [top_imports forallb]. by rewrite H1, H2, H3, H4, H5, H6, H7.
Qed.

Lemma yields_tensorflow_compat b :
  below (tf_version env) "2.3.0rc0" = inr b →
  forallb (import_ok env) (tensorflow_imports b) = true →
  forallb (λ oa, has_attr env oa.1 oa.2) (attributes_read b) = true →
  yields (tensorflow_compat env) tt.
Proof.
  intros Eb Hi Ha. unfold tensorflow_compat. rewrite Eb.
  apply (yields_bind _ _ b); [apply yields_lift |].
  destruct b; cbn [tensorflow_imports attributes_read app forallb fst snd]
    in Hi, Ha;
    repeat (apply andb_prop in Hi as [? Hi]);
    repeat (apply andb_prop in Ha as [? Ha]).
  - apply yields_seq; [yields_steps |].
    apply (yields_bind _ _ true); [apply yields_lift |].
    apply yields_seq; [yields_steps |].
    eapply yields_bind; [by apply yields_getattr |].
    yields_steps.
  - apply yields_seq; [yields_steps |].
    apply (yields_bind _ _ false); [apply yields_lift |].
    apply yields_ret.
Qed.

Lemma tensorflow_compat_ok s s' :
  tensorflow_compat env s = (inr tt, s') →
  ∃ b, below (tf_version env) "2.3.0rc0" = inr b
       ∧ forallb (import_ok env) (tensorflow_imports b) = true
       ∧ (has_attr env "nengo._vendor.scipy.sparse.linalg_interface"
            "aslinearoperator" = true →
          forallb (λ oa, has_attr env oa.1 oa.2) (attributes_read b)
          = true).
Proof.
  unfold tensorflow_compat. intros Hs.
  apply bind_inr in Hs as (b & s1 & [Hb ->]%lift_inr & Hs).
  exists b. split; [done |]. rewrite Hb in Hs.
  apply seq_inr in Hs as (s2 & H1 & Hs).
  apply bind_inr in Hs as (b' & s3 & [[= <-] ->]%lift_inr & Hs).
  destruct b; cbn [tensorflow_imports attributes_read app forallb fst snd].
  - apply seq_inr in Hs as (s4 & H2%from_import_ok & Hs).
    apply bind_inr in Hs as (v & s5 & H3%getattr_has_attr & _).
    rewrite H2, H3. split; [done |]. by intros ->.
  - apply from_import_ok in H1. rewrite H1. split; [done |]. by intros ->.
Qed.

Lemma yields_nengo_compat b :
  below (nengo_version env) "3.1.0.dev0" = inr b →
  has_attr env "nengo._vendor.scipy.sparse.linalg_interface"
    "aslinearoperator" = true →
  forallb (import_ok env) (nengo_imports b) = true →
  b || guarded_ok env transpose_imports = true →
  yields (nengo_compat env) tt.
Proof.
  intros Eb Ha Hi Hg. unfold nengo_compat. rewrite Eb.
  eapply yields_bind; [by apply yields_getattr |].
  do 3 (apply yields_seq; [yields_steps |]).
  apply (yields_bind _ _ b); [apply yields_lift |].
  destruct b; cbn [nengo_imports forallb orb] in Hi, Hg;
    repeat (apply andb_prop in Hi as [? Hi]).
  - yields_steps.
  - do 2 (apply yields_seq; [yields_steps |]).
    apply yields_seq; [by apply yields_import_ConvolutionTranspose |].
    yields_steps.
Qed.

Lemma nengo_compat_ok s s' :
  nengo_compat env s = (inr tt, s') →
  has_attr env "nengo._vendor.scipy.sparse.linalg_interface"
    "aslinearoperator" = true
  ∧ ∃ b, below (nengo_version env) "3.1.0.dev0" = inr b
         ∧ forallb (import_ok env) (nengo_imports b) = true
         ∧ b || guarded_ok env transpose_imports = true.
Proof.
  unfold nengo_compat. intros Hs.
  apply bind_inr in Hs as (v & s1 & Ha & Hs).
  apply getattr_has_attr in Ha. split; [done |].
  do 3 (apply seq_inr in Hs as (? & _ & Hs)).
  apply bind_inr in Hs as (b & s2 & [Hb ->]%lift_inr & Hs).
  exists b. split; [done |].
  destruct b; [done |]. cbn [nengo_imports forallb orb].
  apply seq_inr in Hs as (s3 & H1%from_import_ok & Hs).
  apply seq_inr in Hs as (s4 & H2%from_import_ok & Hs).
  apply seq_inr in Hs as (s5 & H3%import_ConvolutionTranspose_guarded & _).
  by rewrite H1, H2, H3.
Qed.


End LoadingFacts.


(** The module loads without its optional dependencies, and not when
    one of them fails in another way. *)
Example loadable_installations :
  Loading.loadable (H := PEP440.packaging)
    (Resolver.bare_installation "2.2.0" "3.1.0") = true
  ∧ Loading.loadable (H := PEP440.packaging)
      (Resolver.broken_installation "2.3.0" "3.0.0") = false
  ∧ Loading.loadable (H := PEP440.packaging)
      (Resolver.installation "2.3" "three") = false.
Proof. split; [|split]; vm_compute; reflexivity. Qed.
